(** * Step-and-repeat imposition: a shallow embedding of
      [step_and_repeat_imposition.py] and the properties of its planner.

    Numbers.  The script computes with Python [float]s.  This development
    reads every float as the rational it denotes and every operation as the
    exact one ([Q] from the Standard Library): no rounding, no infinities, no
    NaN.  [int(a // b)] on floats is the floor of the quotient, here
    [Qfloor (a / b)], and raises [ZeroDivisionError] for [b = 0].  Column and
    row counts are Python [int]s, here [Z].  Equalities between lengths are
    stated with [==] (equality of rationals).  What is proved on this
    reading are laws between lengths, which the program keeps up to
    rounding.  Which branch a run takes and which exception it raises can
    depend on the rounding: for that the planning part of the program is
    embedded a second time, in binary64 (module [F64], on the kernel's
    primitive floats), and run there.

    The document library.  A page is its media box; a transformation is its
    matrix [(a, b, c, d, e, f)]; an output sheet is the list of (page,
    transformation) pairs merged onto it.

    Effects.  Exceptions are the [Raise] branch of [result]; the one mutation
    of the script (cropping a page's media box) is explicit state passing:
    [crop_page_all_sides] returns the page as the call leaves it, next to the
    outcome of the call. *)

From Stdlib Require Import QArith Qround Qminmax ZArith List Bool Lia Lqa.
From Stdlib Require Import String Ascii Permutation Sorted.
From Stdlib Require PrimFloat FloatOps SpecFloat FloatAxioms.
Import ListNotations.

Local Open Scope Q_scope.

(** ** Boolean comparisons on rationals (the script's [<], [<=], [==]) *)

Definition Qltb (x y : Q) : bool := negb (Qle_bool y x).
Definition Qleb (x y : Q) : bool := Qle_bool x y.
Definition Qeqb (x y : Q) : bool := Qeq_bool x y.

(** ** Exceptions *)

Inductive exception_class : Type :=
| ValueError
| RuntimeError
| ZeroDivisionError
| IndexError
| OverflowError.

(** One constructor per [raise] of the script (and per exception the
    interpreter itself can raise in the modelled code). *)
Inductive error : Type :=
| UnknownFormat        (* get_sheet_size: unknown paper name *)
| TooFewPages          (* main: fewer than two input pages *)
| MarginTooLarge       (* main: usable area not positive *)
| CardTooLarge         (* compute_grid: cols < 1 or rows < 1 *)
| NoViableScenario     (* main: no scenario left *)
| OverTrimmed          (* crop_page_all_sides: nothing left of the box *)
| InvariantViolation   (* main: final margin below the minimum *)
| DivisionByZero       (* float floor division by zero *)
| EmptyList            (* scenarios[0] on an empty list *)
| FloatToIntOverflow   (* int() of an infinite float *)
| FloatToIntNan.       (* int() of a NaN, a ValueError *)

Definition class_of (e : error) : exception_class :=
  match e with
  | UnknownFormat | TooFewPages | MarginTooLarge | CardTooLarge
  | NoViableScenario | OverTrimmed | FloatToIntNan => ValueError
  | InvariantViolation => RuntimeError
  | DivisionByZero => ZeroDivisionError
  | EmptyList => IndexError
  | FloatToIntOverflow => OverflowError
  end.

Definition is_ValueError (e : error) : bool :=
  match class_of e with ValueError => true | _ => false end.

Inductive result (A : Type) : Type :=
| Ok (a : A)
| Raise (e : error).
Arguments Ok {A} a.
Arguments Raise {A} e.

Definition bind {A B : Type} (r : result A) (k : A -> result B) : result B :=
  match r with
  | Ok a => k a
  | Raise e => Raise e
  end.

Notation "x <- c ;; k" := (bind c (fun x => k))
  (at level 61, c at next level, right associativity).
Notation "' pat <- c ;; k" := (bind c (fun x => match x with pat => k end))
  (at level 61, pat pattern, c at next level, right associativity).

(** A [for] loop that threads an accumulator and stops at the first
    exception. *)
Fixpoint for_each {A S : Type} (xs : list A) (body : A -> S -> result S)
  (s : S) : result S :=
  match xs with
  | [] => Ok s
  | x :: xs' => s' <- body x s ;; for_each xs' body s'
  end.

(** ** Units and sheet formats *)

Definition MM_TO_PT : Q := 72 / (254 # 10).

Definition PAPER_SIZES_MM : list (string * (Q * Q)) :=
  [ ("A4"%string, (210, 297));
    ("A3"%string, (297, 420));
    ("SRA4"%string, (225, 320));
    ("SRA3"%string, (320, 450)) ].

Definition BACK_OFFSET_X_MM : Q := - (25 # 10).
Definition BACK_OFFSET_Y_MM : Q := 0.

Definition mm_to_points (w_mm h_mm : Q) : Q * Q :=
  (w_mm * MM_TO_PT, h_mm * MM_TO_PT).

(** [str.upper] on the ASCII letters.  On characters beyond ASCII
    [str.upper] does more (it sends U+017F to S); the model stands for the
    program on names of ASCII characters. *)
Definition upper_ascii (c : ascii) : ascii :=
  let n := nat_of_ascii c in
  if (97 <=? n)%nat && (n <=? 122)%nat then ascii_of_nat (n - 32) else c.

Fixpoint upper (s : string) : string :=
  match s with
  | EmptyString => EmptyString
  | String c s' => String (upper_ascii c) (upper s')
  end.

Fixpoint lookup {V : Type} (k : string) (d : list (string * V)) : option V :=
  match d with
  | [] => None
  | (k', v) :: d' => if String.eqb k k' then Some v else lookup k d'
  end.

Definition get_sheet_size (format_name : string) : result (Q * Q) :=
  let fmt := upper format_name in
  match lookup fmt PAPER_SIZES_MM with
  | None => Raise UnknownFormat
  | Some (w_mm, h_mm) => Ok (mm_to_points w_mm h_mm)
  end.

(** ** Grid fit *)

(** [int(a // b)] for a finite float quotient.  (A float quotient can also
    be infinite or NaN, where [int] raises: [F64.floordiv], [F64.int].) *)
Definition floordiv (a b : Q) : result Z :=
  if Qeqb b 0 then Raise DivisionByZero else Ok (Qfloor (a / b)).

Definition compute_grid (card_w card_h usable_w usable_h : Q)
  : result (Z * Z * Q * Q) :=
  cols <- floordiv usable_w card_w ;;
  rows <- floordiv usable_h card_h ;;
  if (cols <? 1)%Z || (rows <? 1)%Z then Raise CardTooLarge
  else
    let used_w := inject_Z cols * card_w in
    let used_h := inject_Z rows * card_h in
    let margin_x := (usable_w - used_w) / 2 in
    let margin_y := (usable_h - used_h) / 2 in
    Ok (cols, rows, margin_x, margin_y).

(** ** Pages and their boxes (the document library's side) *)

Record RectangleObject : Type := mkRect {
  left : Q;
  bottom : Q;
  right : Q;
  top : Q
}.

Definition width (r : RectangleObject) : Q := right r - left r.
Definition height (r : RectangleObject) : Q := top r - bottom r.
Definition lower_left (r : RectangleObject) : Q * Q := (left r, bottom r).
Definition upper_right (r : RectangleObject) : Q * Q := (right r, top r).

Definition set_lower_left (r : RectangleObject) (p : Q * Q) : RectangleObject :=
  {| left := fst p; bottom := snd p; right := right r; top := top r |}.
Definition set_upper_right (r : RectangleObject) (p : Q * Q) : RectangleObject :=
  {| left := left r; bottom := bottom r; right := fst p; top := snd p |}.

Record PageObject : Type := mkPage {
  mediabox : RectangleObject
}.

(** ** Cropping: the one mutation.  The first component is the page as the
    call leaves it, whether it returns or raises. *)

Definition crop_page_all_sides (page : PageObject) (trim_loss_mm : Q)
  : PageObject * result unit :=
  if Qleb trim_loss_mm 0 then (page, Ok tt)
  else
    let trim_pts := trim_loss_mm * MM_TO_PT in
    let '(llx, lly) := lower_left (mediabox page) in
    let '(urx, ury) := upper_right (mediabox page) in
    let new_llx := llx + trim_pts in
    let new_lly := lly + trim_pts in
    let new_urx := urx - trim_pts in
    let new_ury := ury - trim_pts in
    if Qleb new_urx new_llx || Qleb new_ury new_lly
    then (page, Raise OverTrimmed)
    else
      let page1 :=
        {| mediabox := set_lower_left (mediabox page) (new_llx, new_lly) |} in
      let page2 :=
        {| mediabox := set_upper_right (mediabox page1) (new_urx, new_ury) |} in
      (page2, Ok tt).

(** ** Scenarios (the dictionaries built in [main]) *)

Record scenario : Type := mkScenario {
  trim_mm : Q;
  rotate : bool;
  cols : Z;
  rows : Z;
  inner_mx : Q;
  inner_my : Q;
  card_w_eff : Q;
  card_h_eff : Q;
  capacity : Z
}.

Definition trim_candidates_mm : list Q := [0; 2].

(** Card size tried for one trim candidate (main, lines 231-233). *)
Definition candidate_card (orig_w orig_h trim_mm : Q) : Q * Q :=
  let trim_pts := trim_mm * MM_TO_PT in
  let card_w := if Qltb 0 trim_mm then orig_w - 2 * trim_pts else orig_w in
  let card_h := if Qltb 0 trim_mm then orig_h - 2 * trim_pts else orig_h in
  (card_w, card_h).

(** Body of the inner loop [for rotate in (False, True)], lines 239-269:
    the [try] block, [except ValueError: continue], and the [append]. *)
Definition try_rotation (trim_mm card_w card_h usable_w usable_h : Q)
  (rotate : bool) (scenarios : list scenario) : result (list scenario) :=
  let card_w_eff := if rotate then card_h else card_w in
  let card_h_eff := if rotate then card_w else card_h in
  match compute_grid card_w_eff card_h_eff usable_w usable_h with
  | Ok (cols, rows, inner_mx, inner_my) =>
      let capacity := (cols * rows)%Z in
      Ok (scenarios ++
          [ {| trim_mm := trim_mm; rotate := rotate;
               cols := cols; rows := rows;
               inner_mx := inner_mx; inner_my := inner_my;
               card_w_eff := card_w_eff; card_h_eff := card_h_eff;
               capacity := capacity |} ])
  | Raise e => if is_ValueError e then Ok scenarios else Raise e
  end.

(** Body of the outer loop [for trim_mm in trim_candidates_mm], lines
    231-269. *)
Definition try_trim (orig_w orig_h usable_w usable_h : Q)
  (trim_mm : Q) (scenarios : list scenario) : result (list scenario) :=
  let '(card_w, card_h) := candidate_card orig_w orig_h trim_mm in
  if Qleb card_w 0 || Qleb card_h 0 then Ok scenarios
  else
    for_each [false; true]
      (try_rotation trim_mm card_w card_h usable_w usable_h) scenarios.

(** Lines 227-269. *)
Definition enumerate_scenarios (orig_w orig_h usable_w usable_h : Q)
  : result (list scenario) :=
  for_each trim_candidates_mm (try_trim orig_w orig_h usable_w usable_h) [].

(** ** Selection: [scenarios.sort(key=..., reverse=True)] and
    [scenarios[0]] *)

Definition sort_key (s : scenario) : Z * Q * bool :=
  (capacity s, - trim_mm s, negb (rotate s)).

(** Python's [<] on tuples: the first position where the two differ
    decides ([False < True] on the flags). *)
Definition key_lt (a b : Z * Q * bool) : bool :=
  let '(c1, t1, r1) := a in
  let '(c2, t2, r2) := b in
  if negb (c1 =? c2)%Z then (c1 <? c2)%Z
  else if negb (Qeqb t1 t2) then Qltb t1 t2
  else negb r1 && r2.

(** [list.sort] is stable, also with [reverse=True]: the result is in
    descending key order and elements of equal key keep their order.  Every
    stable sort computes the same list; it is written here as an insertion
    sort. *)
Fixpoint insert_desc (x : scenario) (l : list scenario) : list scenario :=
  match l with
  | [] => [x]
  | y :: l' =>
      if key_lt (sort_key x) (sort_key y) then y :: insert_desc x l'
      else x :: y :: l'
  end.

Fixpoint sort_desc (l : list scenario) : list scenario :=
  match l with
  | [] => []
  | x :: l' => insert_desc x (sort_desc l')
  end.

(** Lines 271-283. *)
Definition select_best (scenarios : list scenario) : result scenario :=
  match scenarios with
  | [] => Raise NoViableScenario
  | _ =>
      match sort_desc scenarios with
      | best :: _ => Ok best
      | [] => Raise EmptyList
      end
  end.

(** ** Affine transforms (the document library's [Transformation]) *)

(** The matrix [(a, b, c, d, e, f)] sends [(x, y)] to
    [(a x + c y + e, b x + d y + f)]. *)
Record Transformation : Type := mkT {
  ta : Q; tb : Q; tc : Q; td : Q; te : Q; tf : Q
}.

Definition Transformation_id : Transformation := mkT 1 0 0 1 0 0.

(** [.rotate(90)]: the matrix composed with the rotation by a quarter turn
    counter-clockwise about the origin ([cos = 0], [sin = 1]). *)
Definition rotate90 (m : Transformation) : Transformation :=
  let c := 0 in
  let s := 1 in
  mkT (ta m * c + tb m * - s) (ta m * s + tb m * c)
      (tc m * c + td m * - s) (tc m * s + td m * c)
      (te m * c + tf m * - s) (te m * s + tf m * c).

Definition translate (m : Transformation) (tx ty : Q) : Transformation :=
  mkT (ta m) (tb m) (tc m) (td m) (te m + tx) (tf m + ty).

Definition apply_on (t : Transformation) (p : Q * Q) : Q * Q :=
  (fst p * ta t + snd p * tc t + te t,
   fst p * tb t + snd p * td t + tf t).

(** [merge_transformed_page] draws the content of the source page, which
    the page's box delimits, under the matrix: a point [p] of the page is
    drawn at [apply_on t p].  Where the box lands: the lower-left corner of
    the bounding box of the images of its four corners. *)
Definition Qmin4 (a b c d : Q) : Q := Qmin (Qmin a b) (Qmin c d).

Definition placed_lower_left (t : Transformation) (r : RectangleObject)
  : Q * Q :=
  let p1 := apply_on t (left r, bottom r) in
  let p2 := apply_on t (right r, bottom r) in
  let p3 := apply_on t (right r, top r) in
  let p4 := apply_on t (left r, top r) in
  (Qmin4 (fst p1) (fst p2) (fst p3) (fst p4),
   Qmin4 (snd p1) (snd p2) (snd p3) (snd p4)).

(** ** Placement *)

(** An output sheet: its size and what was merged onto it, in order. *)
Record SheetPage : Type := mkSheet {
  sheet_width : Q;
  sheet_height : Q;
  merged : list (PageObject * Transformation)
}.

Definition PdfWriter : Type := list SheetPage.

Definition range (n : Z) : list Z := map Z.of_nat (seq 0 (Z.to_nat n)).

(** Lines 90-91. *)
Definition cell_origin (margin_x margin_y card_w_eff card_h_eff : Q)
  (col row : Z) : Q * Q :=
  (margin_x + inject_Z col * card_w_eff,
   margin_y + inject_Z row * card_h_eff).

(** Lines 93-100. *)
Definition cell_transform (rotate : bool) (card_h_raw : Q) (xy : Q * Q)
  : Transformation :=
  let '(x, y) := xy in
  if rotate
  then translate (rotate90 Transformation_id) (x + card_h_raw) y
  else translate Transformation_id x y.

Definition impose_side (writer : PdfWriter) (base_page : PageObject)
  (sheet_w sheet_h : Q) (cols rows : Z)
  (margin_x margin_y card_w_eff card_h_eff : Q) (rotate : bool)
  : PdfWriter * SheetPage :=
  let card_h_raw := height (mediabox base_page) in
  let placements :=
    flat_map (fun row =>
      map (fun col =>
        let xy := cell_origin margin_x margin_y card_w_eff card_h_eff col row in
        (base_page, cell_transform rotate card_h_raw xy))
        (range cols))
      (range rows) in
  let new_page :=
    {| sheet_width := sheet_w; sheet_height := sheet_h;
       merged := placements |} in
  (writer ++ [new_page], new_page).

(** ** The program *)

Record Namespace : Type := mkArgs {
  arg_paper : string;
  arg_margin_mm : option Q;
  arg_margin_x_mm : Q;
  arg_margin_y_mm : Q
}.

Definition default_args : Namespace :=
  {| arg_paper := "A4"; arg_margin_mm := None;
     arg_margin_x_mm := 5; arg_margin_y_mm := 5 |}.

(** What a run that returns leaves behind: the chosen scenario, the two
    pages as cropped, the final geometry, and the output document. *)
Record Outcome : Type := mkOutcome {
  best : scenario;
  front_after : PageObject;
  back_after : PageObject;
  final_card_w_eff : Q;
  final_card_h_eff : Q;
  margin_x : Q;
  margin_y : Q;
  written : PdfWriter
}.

(** Lines 192-197. *)
Definition min_margins_mm (args : Namespace) : Q * Q :=
  match arg_margin_mm args with
  | Some m => (m, m)
  | None => (arg_margin_x_mm args, arg_margin_y_mm args)
  end.

(** Lines 285-288: both pages are cropped, the front one first. *)
Definition apply_trim (best : scenario) (front_page back_page : PageObject)
  : result (PageObject * PageObject) :=
  if Qltb 0 (trim_mm best) then
    let '(front_page', r1) := crop_page_all_sides front_page (trim_mm best) in
    _ <- r1 ;;
    let '(back_page', r2) := crop_page_all_sides back_page (trim_mm best) in
    _ <- r2 ;;
    Ok (front_page', back_page')
  else Ok (front_page, back_page).

Definition main (args : Namespace) (reader : list PageObject)
  : result Outcome :=
  let '(margin_x_mm, margin_y_mm) := min_margins_mm args in
  match reader with
  | front_page :: back_page :: _ =>
      let orig_w := width (mediabox front_page) in
      let orig_h := height (mediabox front_page) in
      '(sheet_w, sheet_h) <- get_sheet_size (arg_paper args) ;;
      let margin_x_min_pts := margin_x_mm * MM_TO_PT in
      let margin_y_min_pts := margin_y_mm * MM_TO_PT in
      let usable_w := sheet_w - 2 * margin_x_min_pts in
      let usable_h := sheet_h - 2 * margin_y_min_pts in
      if Qleb usable_w 0 || Qleb usable_h 0 then Raise MarginTooLarge
      else
        scenarios <- enumerate_scenarios orig_w orig_h usable_w usable_h ;;
        best <- select_best scenarios ;;
        '(front_page, back_page) <- apply_trim best front_page back_page ;;
        let final_card_w := width (mediabox front_page) in
        let final_card_h := height (mediabox front_page) in
        let card_w_eff := if rotate best then final_card_h else final_card_w in
        let card_h_eff := if rotate best then final_card_w else final_card_h in
        let grid_w := inject_Z (cols best) * card_w_eff in
        let grid_h := inject_Z (rows best) * card_h_eff in
        let margin_x := (sheet_w - grid_w) / 2 in
        let margin_y := (sheet_h - grid_h) / 2 in
        if Qltb margin_x (margin_x_min_pts - (1 # 100))
           || Qltb margin_y (margin_y_min_pts - (1 # 100))
        then Raise InvariantViolation
        else
          let writer : PdfWriter := [] in
          let back_offset_x := BACK_OFFSET_X_MM * MM_TO_PT in
          let back_offset_y := BACK_OFFSET_Y_MM * MM_TO_PT in
          let '(writer, _) :=
            impose_side writer front_page sheet_w sheet_h
              (cols best) (rows best) margin_x margin_y
              card_w_eff card_h_eff (rotate best) in
          let '(writer, _) :=
            impose_side writer back_page sheet_w sheet_h
              (cols best) (rows best)
              (margin_x + back_offset_x) (margin_y + back_offset_y)
              card_w_eff card_h_eff (rotate best) in
          Ok {| best := best;
                front_after := front_page; back_after := back_page;
                final_card_w_eff := card_w_eff;
                final_card_h_eff := card_h_eff;
                margin_x := margin_x; margin_y := margin_y;
                written := writer |}
  | _ => Raise TooFewPages
  end.

(** ** Specification-side definitions

    The enumerator in closed form, used to reason about the loops. *)

(** The scenario of one (trim, rotation) pair, when its grid holds at least
    one card. *)
Definition grid_scenario (trim_mm card_w card_h usable_w usable_h : Q)
  (rotate : bool) : option scenario :=
  let cw := if rotate then card_h else card_w in
  let ch := if rotate then card_w else card_h in
  let c := Qfloor (usable_w / cw) in
  let r := Qfloor (usable_h / ch) in
  if (c <? 1)%Z || (r <? 1)%Z then None
  else Some {| trim_mm := trim_mm; rotate := rotate; cols := c; rows := r;
               inner_mx := (usable_w - inject_Z c * cw) / 2;
               inner_my := (usable_h - inject_Z r * ch) / 2;
               card_w_eff := cw; card_h_eff := ch;
               capacity := (c * r)%Z |}.

Definition option_list {A : Type} (o : option A) : list A :=
  match o with Some a => [a] | None => [] end.

Definition trim_scenarios (orig_w orig_h usable_w usable_h trim_mm : Q)
  : list scenario :=
  let '(card_w, card_h) := candidate_card orig_w orig_h trim_mm in
  if Qleb card_w 0 || Qleb card_h 0 then []
  else
    option_list (grid_scenario trim_mm card_w card_h usable_w usable_h false)
    ++ option_list (grid_scenario trim_mm card_w card_h usable_w usable_h true).

Definition enumerated (orig_w orig_h usable_w usable_h : Q) : list scenario :=
  trim_scenarios orig_w orig_h usable_w usable_h 0
  ++ trim_scenarios orig_w orig_h usable_w usable_h 2.

(** What every enumerated scenario records. *)
Record viable (ow oh uw uh : Q) (s : scenario) : Prop := mkViable {
  v_trim : In (trim_mm s) trim_candidates_mm;
  v_card_w : 0 < fst (candidate_card ow oh (trim_mm s));
  v_card_h : 0 < snd (candidate_card ow oh (trim_mm s));
  v_w_eff : card_w_eff s =
            if rotate s then snd (candidate_card ow oh (trim_mm s))
            else fst (candidate_card ow oh (trim_mm s));
  v_h_eff : card_h_eff s =
            if rotate s then fst (candidate_card ow oh (trim_mm s))
            else snd (candidate_card ow oh (trim_mm s));
  v_cols : cols s = Qfloor (uw / card_w_eff s);
  v_rows : rows s = Qfloor (uh / card_h_eff s);
  v_cols_pos : (1 <= cols s)%Z;
  v_rows_pos : (1 <= rows s)%Z;
  v_capacity : capacity s = (cols s * rows s)%Z
}.

(** [a] does not sort after [b]: [sort_key a < sort_key b] is false. *)
Definition key_ge (a b : scenario) : Prop :=
  key_lt (sort_key a) (sort_key b) = false.

(** No two scenarios of the list share a (trim, rotation) pair. *)
Definition distinct_pairs (l : list scenario) : Prop :=
  forall s1 s2, In s1 l -> In s2 l ->
    trim_mm s1 == trim_mm s2 -> rotate s1 = rotate s2 -> s1 = s2.

(** The usable area of a sheet under the minimum margins of [args]
    (main, lines 217-221). *)
Definition usable_w_of (args : Namespace) (sheet_w : Q) : Q :=
  sheet_w - 2 * (fst (min_margins_mm args) * MM_TO_PT).
Definition usable_h_of (args : Namespace) (sheet_h : Q) : Q :=
  sheet_h - 2 * (snd (min_margins_mm args) * MM_TO_PT).

(** What a run that returns [out] went through. *)
Record run_ok (args : Namespace) (reader : list PageObject) (out : Outcome)
  (front back : PageObject) (sheet_w sheet_h : Q) : Prop := mkRun {
  run_pages : exists rest, reader = front :: back :: rest;
  run_sheet : get_sheet_size (arg_paper args) = Ok (sheet_w, sheet_h);
  run_usable_w : 0 < usable_w_of args sheet_w;
  run_usable_h : 0 < usable_h_of args sheet_h;
  run_best :
    select_best
      (enumerated (width (mediabox front)) (height (mediabox front))
         (usable_w_of args sheet_w) (usable_h_of args sheet_h))
    = Ok (best out);
  run_trim :
    apply_trim (best out) front back = Ok (front_after out, back_after out);
  run_w_eff :
    final_card_w_eff out =
    if rotate (best out) then height (mediabox (front_after out))
    else width (mediabox (front_after out));
  run_h_eff :
    final_card_h_eff out =
    if rotate (best out) then width (mediabox (front_after out))
    else height (mediabox (front_after out));
  run_margin_x :
    margin_x out =
    (sheet_w - inject_Z (cols (best out)) * final_card_w_eff out) / 2;
  run_margin_y :
    margin_y out =
    (sheet_h - inject_Z (rows (best out)) * final_card_h_eff out) / 2;
  run_check_x :
    fst (min_margins_mm args) * MM_TO_PT - (1 # 100) <= margin_x out;
  run_check_y :
    snd (min_margins_mm args) * MM_TO_PT - (1 # 100) <= margin_y out;
  run_written :
    written out =
    [ snd (impose_side [] (front_after out) sheet_w sheet_h
             (cols (best out)) (rows (best out))
             (margin_x out) (margin_y out)
             (final_card_w_eff out) (final_card_h_eff out)
             (rotate (best out)));
      snd (impose_side [] (back_after out) sheet_w sheet_h
             (cols (best out)) (rows (best out))
             (margin_x out + BACK_OFFSET_X_MM * MM_TO_PT)
             (margin_y out + BACK_OFFSET_Y_MM * MM_TO_PT)
             (final_card_w_eff out) (final_card_h_eff out)
             (rotate (best out))) ]
}.

(** The ways a run can go, in program order. *)
Inductive main_run (args : Namespace) (reader : list PageObject)
  : result Outcome -> Prop :=
| run_too_few :
    (List.length reader < 2)%nat ->
    main_run args reader (Raise TooFewPages)
| run_unknown_format front back rest :
    reader = front :: back :: rest ->
    get_sheet_size (arg_paper args) = Raise UnknownFormat ->
    main_run args reader (Raise UnknownFormat)
| run_margin_too_large front back rest sheet_w sheet_h :
    reader = front :: back :: rest ->
    get_sheet_size (arg_paper args) = Ok (sheet_w, sheet_h) ->
    usable_w_of args sheet_w <= 0 \/ usable_h_of args sheet_h <= 0 ->
    main_run args reader (Raise MarginTooLarge)
| run_no_viable_scenario front back rest sheet_w sheet_h :
    reader = front :: back :: rest ->
    get_sheet_size (arg_paper args) = Ok (sheet_w, sheet_h) ->
    0 < usable_w_of args sheet_w -> 0 < usable_h_of args sheet_h ->
    enumerated (width (mediabox front)) (height (mediabox front))
      (usable_w_of args sheet_w) (usable_h_of args sheet_h) = [] ->
    main_run args reader (Raise NoViableScenario)
| run_over_trimmed front back rest sheet_w sheet_h b :
    reader = front :: back :: rest ->
    get_sheet_size (arg_paper args) = Ok (sheet_w, sheet_h) ->
    0 < usable_w_of args sheet_w -> 0 < usable_h_of args sheet_h ->
    select_best
      (enumerated (width (mediabox front)) (height (mediabox front))
         (usable_w_of args sheet_w) (usable_h_of args sheet_h)) = Ok b ->
    apply_trim b front back = Raise OverTrimmed ->
    main_run args reader (Raise OverTrimmed)
| run_invariant_violation front back rest sheet_w sheet_h b front' back' :
    reader = front :: back :: rest ->
    get_sheet_size (arg_paper args) = Ok (sheet_w, sheet_h) ->
    0 < usable_w_of args sheet_w -> 0 < usable_h_of args sheet_h ->
    select_best
      (enumerated (width (mediabox front)) (height (mediabox front))
         (usable_w_of args sheet_w) (usable_h_of args sheet_h)) = Ok b ->
    apply_trim b front back = Ok (front', back') ->
    (sheet_w - inject_Z (cols b) *
       (if rotate b then height (mediabox front')
        else width (mediabox front'))) / 2
      < fst (min_margins_mm args) * MM_TO_PT - (1 # 100) \/
    (sheet_h - inject_Z (rows b) *
       (if rotate b then width (mediabox front')
        else height (mediabox front'))) / 2
      < snd (min_margins_mm args) * MM_TO_PT - (1 # 100) ->
    main_run args reader (Raise InvariantViolation)
| run_returns out front back sheet_w sheet_h :
    run_ok args reader out front back sheet_w sheet_h ->
    main_run args reader (Ok out).

(** The cells of a grid in the order the two loops of [impose_side] visit
    them: row by row, and in a row column by column. *)
Definition cells (cols rows : Z) : list (Z * Z) :=
  flat_map (fun row => map (fun col => (col, row)) (range cols)) (range rows).

(** What [impose_side] merges at one cell. *)
Definition placement (base_page : PageObject)
  (margin_x margin_y card_w_eff card_h_eff : Q) (rotate : bool)
  (cell : Z * Z) : PageObject * Transformation :=
  (base_page,
   cell_transform rotate (height (mediabox base_page))
     (cell_origin margin_x margin_y card_w_eff card_h_eff
        (fst cell) (snd cell))).

(** A name of ASCII characters only, on which [str.upper] changes the
    letters a to z and nothing else. *)
Fixpoint ascii_name (s : string) : bool :=
  match s with
  | EmptyString => true
  | String c s' => (nat_of_ascii c <? 128)%nat && ascii_name s'
  end.

(** Quotients below this size are finite as floats. *)
Definition quotient_bound : Q := inject_Z (2 ^ 1023).

(** ** Sample inputs *)

(** A page whose media box is [[0 0 w h]], sizes given in millimetres. *)
Definition card_page (w_mm h_mm : Q) : PageObject :=
  let '(w, h) := mm_to_points w_mm h_mm in
  {| mediabox := mkRect 0 0 w h |}.

Definition args_with_margins (paper : string) (mx my : Q) : Namespace :=
  {| arg_paper := paper; arg_margin_mm := None;
     arg_margin_x_mm := mx; arg_margin_y_mm := my |}.

(** ** The output name (main, lines 182-189) *)

Fixpoint take (n : nat) (s : string) : string :=
  match n, s with
  | S n', String c s' => String c (take n' s')
  | _, _ => EmptyString
  end.

Fixpoint drop (n : nat) (s : string) : string :=
  match n, s with
  | S n', String _ s' => drop n' s'
  | _, _ => s
  end.

(** [str.rfind] for one character: the last index where it occurs, [-1]
    when it does not. *)
Fixpoint rfind_from (c : ascii) (s : string) (i acc : Z) : Z :=
  match s with
  | EmptyString => acc
  | String a s' =>
      rfind_from c s' (i + 1) (if Ascii.eqb a c then i else acc)
  end.

Definition rfind (c : ascii) (s : string) : Z := rfind_from c s 0 (-1).

(** The loop of [os.path.splitext] that skips the leading dots of the file
    name: the split is made at the last dot as soon as a character before it
    is not a dot. *)
Fixpoint skip_leading_dots (p : string) (dotIndex : Z) (fuel : nat)
  (filenameIndex : Z) : option (string * string) :=
  match fuel with
  | O => None
  | S fuel' =>
      match String.get (Z.to_nat filenameIndex) p with
      | Some "."%char =>
          skip_leading_dots p dotIndex fuel' (filenameIndex + 1)
      | _ => Some (take (Z.to_nat dotIndex) p, drop (Z.to_nat dotIndex) p)
      end
  end.

(** [os.path.splitext] with ["/"] as the separator. *)
Definition splitext (p : string) : string * string :=
  let sepIndex := rfind "/" p in
  let dotIndex := rfind "." p in
  if (sepIndex <? dotIndex)%Z then
    let filenameIndex := (sepIndex + 1)%Z in
    match skip_leading_dots p dotIndex
            (Z.to_nat (dotIndex - filenameIndex)) filenameIndex with
    | Some r => r
    | None => (p, EmptyString)
    end
  else (p, EmptyString).

Definition output_name (input_pdf : string) (output_pdf : option string)
  : string :=
  match output_pdf with
  | None =>
      let '(root, ext) := splitext input_pdf in
      let ext := if String.eqb ext EmptyString then ".pdf"%string else ext in
      (root ++ "_PRINT" ++ ext)%string
  | Some name => name
  end.

(** ** The far corner of a placed box *)

Definition Qmax4 (a b c d : Q) : Q := Qmax (Qmax a b) (Qmax c d).

Definition placed_upper_right (t : Transformation) (r : RectangleObject)
  : Q * Q :=
  let p1 := apply_on t (left r, bottom r) in
  let p2 := apply_on t (right r, bottom r) in
  let p3 := apply_on t (right r, top r) in
  let p4 := apply_on t (left r, top r) in
  (Qmax4 (fst p1) (fst p2) (fst p3) (fst p4),
   Qmax4 (snd p1) (snd p2) (snd p3) (snd p4)).

(** * The planning part of the program in binary64

    The same code once more, from the read of the pages to the margin check
    (main, lines 191-314), with every number a binary64 float and every
    operation the rounded one, as the interpreter computes it.  It is used
    to run the program at given inputs where rounding decides which branch
    is taken; the laws between lengths are proved on the rational reading
    above. *)

Module F64.
Import PrimFloat FloatOps SpecFloat.
Local Open Scope float_scope.

(** [float(n)] for a Python [int]: the nearest float, ties to even. *)
Definition float_of_int (n : Z) : float :=
  SF2Prim (binary_normalize prec emax n 0 false).

(** C's [fmod], which is exact: the remainder of the truncated quotient,
    with the sign of [x]. *)
Definition fmod (x y : float) : float :=
  match Prim2SF x, Prim2SF y with
  | S754_nan, _ | _, S754_nan => nan
  | S754_infinity _, _ => nan
  | _, S754_zero _ => nan
  | S754_zero _, _ => x
  | S754_finite _ _ _, S754_infinity _ => x
  | S754_finite sx mx ex, S754_finite _ my ey =>
      let e := Z.min ex ey in
      let X := (Zpos mx * 2 ^ (ex - e))%Z in
      let Y := (Zpos my * 2 ^ (ey - e))%Z in
      match (X mod Y)%Z with
      | Zpos r => SF2Prim (S754_finite sx r e)
      | _ => if sx then neg_zero else zero
      end
  end.

Definition floor (x : float) : float :=
  match Prim2SF x with
  | S754_finite s m e =>
      if (0 <=? e)%Z then x
      else
        match ((if s then Zneg m else Zpos m) / 2 ^ (- e))%Z with
        | Z0 => zero
        | Zpos p => float_of_int (Zpos p)
        | Zneg p => - float_of_int (Zpos p)
        end
  | _ => x
  end.

(** [int(x)]: truncation; raises on infinities and NaN. *)
Definition int (x : float) : result Z :=
  match Prim2SF x with
  | S754_nan => Raise FloatToIntNan
  | S754_infinity _ => Raise FloatToIntOverflow
  | S754_zero _ => Ok 0%Z
  | S754_finite s m e =>
      let a := if (0 <=? e)%Z then (Zpos m * 2 ^ e)%Z
               else (Zpos m / 2 ^ (- e))%Z in
      Ok (if s then (- a)%Z else a)
  end.

(** [vx // wx] as the interpreter computes it: the quotient of [vx] less
    its [fmod] remainder, lowered by one when the remainder and the divisor
    differ in sign, then snapped to the nearest integer. *)
Definition floordiv (vx wx : float) : result float :=
  if wx =? 0 then Raise DivisionByZero
  else
    let md := fmod vx wx in
    let div := (vx - md) / wx in
    let div :=
      if negb (md =? 0) && xorb (wx <? 0) (md <? 0) then div - 1 else div in
    if negb (div =? 0) then
      let floordiv := floor div in
      Ok (if 0.5 <? div - floordiv then floordiv + 1 else floordiv)
    else Ok (if get_sign (vx / wx) then neg_zero else zero).

Definition MM_TO_PT : float := 72 / (254 / 10).

Definition PAPER_SIZES_MM : list (string * (Z * Z)) :=
  [ ("A4"%string, (210, 297)%Z);
    ("A3"%string, (297, 420)%Z);
    ("SRA4"%string, (225, 320)%Z);
    ("SRA3"%string, (320, 450)%Z) ].

Definition mm_to_points (w_mm h_mm : Z) : float * float :=
  (float_of_int w_mm * MM_TO_PT, float_of_int h_mm * MM_TO_PT).

Definition get_sheet_size (format_name : string) : result (float * float) :=
  let fmt := upper format_name in
  match lookup fmt PAPER_SIZES_MM with
  | None => Raise UnknownFormat
  | Some (w_mm, h_mm) => Ok (mm_to_points w_mm h_mm)
  end.

Definition compute_grid (card_w card_h usable_w usable_h : float)
  : result (Z * Z * float * float) :=
  qw <- floordiv usable_w card_w ;;
  cols <- int qw ;;
  qh <- floordiv usable_h card_h ;;
  rows <- int qh ;;
  if (cols <? 1)%Z || (rows <? 1)%Z then Raise CardTooLarge
  else
    let used_w := float_of_int cols * card_w in
    let used_h := float_of_int rows * card_h in
    let margin_x := (usable_w - used_w) / 2 in
    let margin_y := (usable_h - used_h) / 2 in
    Ok (cols, rows, margin_x, margin_y).

Record RectangleObject : Type := mkRect {
  left : float;
  bottom : float;
  right : float;
  top : float
}.

Definition width (r : RectangleObject) : float := right r - left r.
Definition height (r : RectangleObject) : float := top r - bottom r.

Record PageObject : Type := mkPage {
  mediabox : RectangleObject
}.

Definition crop_page_all_sides (page : PageObject) (trim_loss_mm : float)
  : PageObject * result unit :=
  if trim_loss_mm <=? 0 then (page, Ok tt)
  else
    let trim_pts := trim_loss_mm * MM_TO_PT in
    let llx := left (mediabox page) in
    let lly := bottom (mediabox page) in
    let urx := right (mediabox page) in
    let ury := top (mediabox page) in
    let new_llx := llx + trim_pts in
    let new_lly := lly + trim_pts in
    let new_urx := urx - trim_pts in
    let new_ury := ury - trim_pts in
    if (new_urx <=? new_llx) || (new_ury <=? new_lly)
    then (page, Raise OverTrimmed)
    else ({| mediabox := mkRect new_llx new_lly new_urx new_ury |}, Ok tt).

Record scenario : Type := mkScenario {
  trim_mm : float;
  rotate : bool;
  cols : Z;
  rows : Z;
  inner_mx : float;
  inner_my : float;
  card_w_eff : float;
  card_h_eff : float;
  capacity : Z
}.

Definition trim_candidates_mm : list float := [0; 2].

Definition candidate_card (orig_w orig_h trim_mm : float) : float * float :=
  let trim_pts := trim_mm * MM_TO_PT in
  let card_w := if 0 <? trim_mm then orig_w - 2 * trim_pts else orig_w in
  let card_h := if 0 <? trim_mm then orig_h - 2 * trim_pts else orig_h in
  (card_w, card_h).

Definition try_rotation (trim_mm card_w card_h usable_w usable_h : float)
  (rotate : bool) (scenarios : list scenario) : result (list scenario) :=
  let card_w_eff := if rotate then card_h else card_w in
  let card_h_eff := if rotate then card_w else card_h in
  match compute_grid card_w_eff card_h_eff usable_w usable_h with
  | Ok (cols, rows, inner_mx, inner_my) =>
      let capacity := (cols * rows)%Z in
      Ok (scenarios ++
          [ {| trim_mm := trim_mm; rotate := rotate;
               cols := cols; rows := rows;
               inner_mx := inner_mx; inner_my := inner_my;
               card_w_eff := card_w_eff; card_h_eff := card_h_eff;
               capacity := capacity |} ])
  | Raise e => if is_ValueError e then Ok scenarios else Raise e
  end.

Definition try_trim (orig_w orig_h usable_w usable_h : float)
  (trim_mm : float) (scenarios : list scenario) : result (list scenario) :=
  let '(card_w, card_h) := candidate_card orig_w orig_h trim_mm in
  if (card_w <=? 0) || (card_h <=? 0) then Ok scenarios
  else
    for_each [false; true]
      (try_rotation trim_mm card_w card_h usable_w usable_h) scenarios.

Definition enumerate_scenarios (orig_w orig_h usable_w usable_h : float)
  : result (list scenario) :=
  for_each trim_candidates_mm (try_trim orig_w orig_h usable_w usable_h) [].

Definition sort_key (s : scenario) : Z * float * bool :=
  (capacity s, - trim_mm s, negb (rotate s)).

Definition key_lt (a b : Z * float * bool) : bool :=
  let '(c1, t1, r1) := a in
  let '(c2, t2, r2) := b in
  if negb (c1 =? c2)%Z then (c1 <? c2)%Z
  else if negb (t1 =? t2) then t1 <? t2
  else negb r1 && r2.

Fixpoint insert_desc (x : scenario) (l : list scenario) : list scenario :=
  match l with
  | [] => [x]
  | y :: l' =>
      if key_lt (sort_key x) (sort_key y) then y :: insert_desc x l'
      else x :: y :: l'
  end.

Fixpoint sort_desc (l : list scenario) : list scenario :=
  match l with
  | [] => []
  | x :: l' => insert_desc x (sort_desc l')
  end.

Definition select_best (scenarios : list scenario) : result scenario :=
  match scenarios with
  | [] => Raise NoViableScenario
  | _ =>
      match sort_desc scenarios with
      | best :: _ => Ok best
      | [] => Raise EmptyList
      end
  end.

Definition apply_trim (best : scenario) (front_page back_page : PageObject)
  : result (PageObject * PageObject) :=
  if 0 <? trim_mm best then
    let '(front_page', r1) := crop_page_all_sides front_page (trim_mm best) in
    _ <- r1 ;;
    let '(back_page', r2) := crop_page_all_sides back_page (trim_mm best) in
    _ <- r2 ;;
    Ok (front_page', back_page')
  else Ok (front_page, back_page).

Record Namespace : Type := mkArgs {
  arg_paper : string;
  arg_margin_mm : option float;
  arg_margin_x_mm : float;
  arg_margin_y_mm : float
}.

Definition default_args : Namespace :=
  {| arg_paper := "A4"; arg_margin_mm := None;
     arg_margin_x_mm := 5; arg_margin_y_mm := 5 |}.

(** The plan of a run that passes the margin check. *)
Record Plan : Type := mkPlan {
  best : scenario;
  front_after : PageObject;
  back_after : PageObject;
  final_card_w_eff : float;
  final_card_h_eff : float;
  margin_x : float;
  margin_y : float
}.

Definition min_margins_mm (args : Namespace) : float * float :=
  match arg_margin_mm args with
  | Some m => (m, m)
  | None => (arg_margin_x_mm args, arg_margin_y_mm args)
  end.

(** Lines 191-314 of [main]. *)
Definition main_plan (args : Namespace) (reader : list PageObject)
  : result Plan :=
  let '(margin_x_mm, margin_y_mm) := min_margins_mm args in
  match reader with
  | front_page :: back_page :: _ =>
      let orig_w := width (mediabox front_page) in
      let orig_h := height (mediabox front_page) in
      sheet <- get_sheet_size (arg_paper args) ;;
      let sheet_w := fst sheet in
      let sheet_h := snd sheet in
      let margin_x_min_pts := margin_x_mm * MM_TO_PT in
      let margin_y_min_pts := margin_y_mm * MM_TO_PT in
      let usable_w := sheet_w - 2 * margin_x_min_pts in
      let usable_h := sheet_h - 2 * margin_y_min_pts in
      if (usable_w <=? 0) || (usable_h <=? 0) then Raise MarginTooLarge
      else
        scenarios <- enumerate_scenarios orig_w orig_h usable_w usable_h ;;
        best <- select_best scenarios ;;
        pages <- apply_trim best front_page back_page ;;
        let front_page := fst pages in
        let back_page := snd pages in
        let final_card_w := width (mediabox front_page) in
        let final_card_h := height (mediabox front_page) in
        let card_w_eff := if rotate best then final_card_h else final_card_w in
        let card_h_eff := if rotate best then final_card_w else final_card_h in
        let grid_w := float_of_int (cols best) * card_w_eff in
        let grid_h := float_of_int (rows best) * card_h_eff in
        let margin_x := (sheet_w - grid_w) / 2 in
        let margin_y := (sheet_h - grid_h) / 2 in
        if (margin_x <? margin_x_min_pts - 1 / 100)
           || (margin_y <? margin_y_min_pts - 1 / 100)
        then Raise InvariantViolation
        else
          Ok {| best := best;
                front_after := front_page; back_after := back_page;
                final_card_w_eff := card_w_eff;
                final_card_h_eff := card_h_eff;
                margin_x := margin_x; margin_y := margin_y |}
  | _ => Raise TooFewPages
  end.

(** A page whose media box is [[3e15 0 3e15+294.5 141.73]]: 294.5 pt wide,
    far from the origin, where neighbouring floats are 0.5 apart. *)
Definition far_page : PageObject :=
  {| mediabox := mkRect 3e15 0 (3e15 + 294.5) (14173 / 100) |}.

(** A page of the same size with its box at the origin. *)
Definition near_page : PageObject :=
  {| mediabox := mkRect 0 0 294.5 (14173 / 100) |}.

(** A card of 90 by 50 mm with its box at the origin. *)
Definition card_page_90x50 : PageObject :=
  {| mediabox := mkRect 0 0 (90 * MM_TO_PT) (50 * MM_TO_PT) |}.

(** A page 100 pt high and [2^-1060] pt wide. *)
Definition tiny_page : PageObject :=
  {| mediabox := mkRect 0 0 0x1p-1060 100 |}.

End F64.

(** * Properties *)

(** ** Boolean comparisons reflect the order on [Q] *)

Lemma Qltb_lt x y : Qltb x y = true <-> x < y.
Proof.
  unfold Qltb. rewrite negb_true_iff.
  split; intro H.
  - apply Qnot_le_lt. intro Hle. apply Qle_bool_iff in Hle. congruence.
  - destruct (Qle_bool y x) eqn:E; [|reflexivity].
    apply Qle_bool_iff in E. apply Qle_not_lt in E. contradiction.
Qed.

Lemma Qltb_ge x y : Qltb x y = false <-> y <= x.
Proof.
  unfold Qltb. rewrite negb_false_iff. apply Qle_bool_iff.
Qed.

Lemma Qleb_le x y : Qleb x y = true <-> x <= y.
Proof. apply Qle_bool_iff. Qed.

Lemma Qleb_gt x y : Qleb x y = false <-> y < x.
Proof.
  unfold Qleb. split; intro H.
  - apply Qnot_le_lt. intro Hle. apply Qle_bool_iff in Hle. congruence.
  - destruct (Qle_bool x y) eqn:E; [|reflexivity].
    apply Qle_bool_iff in E. apply Qle_not_lt in E. contradiction.
Qed.

Lemma Qeqb_eq x y : Qeqb x y = true <-> x == y.
Proof. apply Qeq_bool_iff. Qed.

Lemma Qeqb_neq x y : Qeqb x y = false <-> ~ x == y.
Proof.
  unfold Qeqb. split; intro H.
  - intro E. apply Qeq_bool_iff in E. congruence.
  - destruct (Qeq_bool x y) eqn:E; [|reflexivity].
    apply Qeq_bool_iff in E. contradiction.
Qed.


#[global] Arguments Qfloor : simpl never.
#[global] Arguments key_lt : simpl never.
#[global] Arguments sort_key : simpl never.

(** ** The enumerator in closed form *)

Lemma floordiv_pos a b : 0 < b -> floordiv a b = Ok (Qfloor (a / b)).
Proof.
  intro Hb. unfold floordiv.
  destruct (Qeqb b 0) eqn:E; [|reflexivity].
  apply Qeqb_eq in E. rewrite E in Hb. discriminate.
Qed.

Lemma compute_grid_pos cw ch uw uh :
  0 < cw -> 0 < ch ->
  compute_grid cw ch uw uh =
  let c := Qfloor (uw / cw) in
  let r := Qfloor (uh / ch) in
  if (c <? 1)%Z || (r <? 1)%Z then Raise CardTooLarge
  else Ok (c, r, (uw - inject_Z c * cw) / 2, (uh - inject_Z r * ch) / 2).
Proof.
  intros Hw Hh. unfold compute_grid.
  rewrite (floordiv_pos uw cw Hw), (floordiv_pos uh ch Hh). reflexivity.
Qed.

Lemma try_rotation_pos t cw ch uw uh rot acc :
  0 < cw -> 0 < ch ->
  try_rotation t cw ch uw uh rot acc =
  Ok (acc ++ option_list (grid_scenario t cw ch uw uh rot)).
Proof.
  intros Hw Hh. unfold try_rotation, grid_scenario.
  rewrite compute_grid_pos by (destruct rot; assumption).
  cbv zeta.
  destruct ((Qfloor (uw / (if rot then ch else cw)) <? 1)%Z
            || (Qfloor (uh / (if rot then cw else ch)) <? 1)%Z); simpl.
  - now rewrite app_nil_r.
  - reflexivity.
Qed.

Lemma try_trim_eq ow oh uw uh t acc :
  try_trim ow oh uw uh t acc = Ok (acc ++ trim_scenarios ow oh uw uh t).
Proof.
  unfold try_trim, trim_scenarios.
  destruct (candidate_card ow oh t) as [cw ch].
  destruct (Qleb cw 0) eqn:Ew; simpl.
  - now rewrite app_nil_r.
  - destruct (Qleb ch 0) eqn:Eh; simpl.
    + now rewrite app_nil_r.
    + apply Qleb_gt in Ew, Eh.
      rewrite try_rotation_pos by assumption. simpl.
      rewrite try_rotation_pos by assumption.
      now rewrite <- app_assoc.
Qed.

(** The enumeration loop never raises: it returns the closed form. *)
Lemma enumerate_scenarios_eq ow oh uw uh :
  enumerate_scenarios ow oh uw uh = Ok (enumerated ow oh uw uh).
Proof.
  unfold enumerate_scenarios, trim_candidates_mm, enumerated. simpl.
  rewrite try_trim_eq. simpl. rewrite try_trim_eq. reflexivity.
Qed.

Lemma grid_scenario_Some t cw ch uw uh rot s :
  grid_scenario t cw ch uw uh rot = Some s ->
  trim_mm s = t /\ rotate s = rot /\
  card_w_eff s = (if rot then ch else cw) /\
  card_h_eff s = (if rot then cw else ch) /\
  cols s = Qfloor (uw / card_w_eff s) /\
  rows s = Qfloor (uh / card_h_eff s) /\
  (1 <= cols s)%Z /\ (1 <= rows s)%Z /\
  capacity s = (cols s * rows s)%Z /\
  inner_mx s = (uw - inject_Z (cols s) * card_w_eff s) / 2 /\
  inner_my s = (uh - inject_Z (rows s) * card_h_eff s) / 2.
Proof.
  unfold grid_scenario.
  destruct ((Qfloor (uw / (if rot then ch else cw)) <? 1)%Z) eqn:Ec;
    [discriminate|].
  destruct ((Qfloor (uh / (if rot then cw else ch)) <? 1)%Z) eqn:Er;
    [discriminate|].
  simpl. intros [= <-]. simpl.
  apply Z.ltb_ge in Ec, Er.
  repeat split; assumption.
Qed.

Lemma grid_scenario_None t cw ch uw uh rot :
  grid_scenario t cw ch uw uh rot = None <->
  (Qfloor (uw / (if rot then ch else cw)) < 1)%Z \/
  (Qfloor (uh / (if rot then cw else ch)) < 1)%Z.
Proof.
  unfold grid_scenario.
  destruct (Z.ltb_spec (Qfloor (uw / (if rot then ch else cw))) 1) as [Hc|Hc];
  destruct (Z.ltb_spec (Qfloor (uh / (if rot then cw else ch))) 1) as [Hr|Hr];
  simpl; split; intro H; try reflexivity; try discriminate; auto.
  destruct H; lia.
Qed.

Lemma In_option_list {A : Type} (o : option A) (a : A) :
  In a (option_list o) <-> o = Some a.
Proof.
  destruct o; simpl; split; intro H.
  - destruct H as [->|[]]. reflexivity.
  - injection H as ->. now left.
  - destruct H.
  - discriminate.
Qed.

Lemma In_trim_scenarios s ow oh uw uh t :
  In s (trim_scenarios ow oh uw uh t) <->
  0 < fst (candidate_card ow oh t) /\ 0 < snd (candidate_card ow oh t) /\
  exists rot,
    grid_scenario t (fst (candidate_card ow oh t))
      (snd (candidate_card ow oh t)) uw uh rot = Some s.
Proof.
  unfold trim_scenarios.
  destruct (candidate_card ow oh t) as [cw ch]. simpl.
  destruct (Qleb cw 0) eqn:Ew; simpl.
  { apply Qleb_le in Ew. split; [intros []|].
    intros (Hw & _). exfalso. apply (Qlt_irrefl 0).
    eapply Qlt_le_trans; eassumption. }
  destruct (Qleb ch 0) eqn:Eh; simpl.
  { apply Qleb_le in Eh. split; [intros []|].
    intros (_ & Hh & _). exfalso. apply (Qlt_irrefl 0).
    eapply Qlt_le_trans; eassumption. }
  apply Qleb_gt in Ew, Eh.
  rewrite in_app_iff, !In_option_list.
  split.
  - intros [H|H]; (split; [assumption|split; [assumption|]]);
      [exists false|exists true]; assumption.
  - intros (_ & _ & [[|] H]); [right|left]; assumption.
Qed.

Lemma In_enumerated s ow oh uw uh :
  In s (enumerated ow oh uw uh) <->
  exists t, In t trim_candidates_mm /\
            In s (trim_scenarios ow oh uw uh t).
Proof.
  unfold enumerated, trim_candidates_mm. rewrite in_app_iff. simpl.
  split.
  - intros [H|H]; [exists 0|exists 2]; auto.
  - intros (t & [<-|[<-|[]]] & H); auto.
Qed.

Lemma length_option_list {A : Type} (o : option A) :
  (List.length (option_list o) <= 1)%nat.
Proof. destruct o; simpl; lia. Qed.

Lemma length_trim_scenarios ow oh uw uh t :
  (List.length (trim_scenarios ow oh uw uh t) <= 2)%nat.
Proof.
  unfold trim_scenarios.
  destruct (candidate_card ow oh t) as [cw ch].
  destruct (Qleb cw 0 || Qleb ch 0); simpl; [lia|].
  rewrite List.length_app.
  pose proof (length_option_list (grid_scenario t cw ch uw uh false)).
  pose proof (length_option_list (grid_scenario t cw ch uw uh true)).
  lia.
Qed.

Lemma enumerated_viable ow oh uw uh s :
  In s (enumerated ow oh uw uh) -> viable ow oh uw uh s.
Proof.
  rewrite In_enumerated. intros (t & Ht & Hs).
  apply In_trim_scenarios in Hs. destruct Hs as (Hw & Hh & rot & Hg).
  apply grid_scenario_Some in Hg.
  destruct Hg as (Et & Er & Ew & Eh & Ec & Erw & Hc & Hr & Ecap & _).
  subst t rot. constructor; assumption.
Qed.

(** A scenario is determined by its (trim, rotation) pair. *)
Lemma enumerated_pair_unique ow oh uw uh s1 s2 :
  In s1 (enumerated ow oh uw uh) -> In s2 (enumerated ow oh uw uh) ->
  trim_mm s1 == trim_mm s2 -> rotate s1 = rotate s2 -> s1 = s2.
Proof.
  rewrite !In_enumerated.
  intros (t1 & Ht1 & H1) (t2 & Ht2 & H2) Et Er.
  apply In_trim_scenarios in H1, H2.
  destruct H1 as (_ & _ & r1 & G1), H2 as (_ & _ & r2 & G2).
  pose proof (grid_scenario_Some _ _ _ _ _ _ _ G1) as (E1 & E1' & _).
  pose proof (grid_scenario_Some _ _ _ _ _ _ _ G2) as (E2 & E2' & _).
  assert (t1 = t2).
  { rewrite E1, E2 in Et. unfold trim_candidates_mm in *. simpl in *.
    destruct Ht1 as [<-|[<-|[]]], Ht2 as [<-|[<-|[]]];
      try reflexivity; discriminate Et. }
  subst t2. assert (r1 = r2) by congruence. subst r2.
  congruence.
Qed.

Lemma length_enumerated ow oh uw uh :
  (List.length (enumerated ow oh uw uh) <= 4)%nat.
Proof.
  unfold enumerated. rewrite List.length_app.
  pose proof (length_trim_scenarios ow oh uw uh 0).
  pose proof (length_trim_scenarios ow oh uw uh 2).
  lia.
Qed.

(** A pair whose grid has no column or no row leaves no scenario. *)
Lemma enumerated_dropped ow oh uw uh t (rot : bool) s :
  (Qfloor (uw / (if rot then snd (candidate_card ow oh t)
                 else fst (candidate_card ow oh t))) < 1)%Z \/
  (Qfloor (uh / (if rot then fst (candidate_card ow oh t)
                 else snd (candidate_card ow oh t))) < 1)%Z ->
  In s (enumerated ow oh uw uh) ->
  ~ (trim_mm s = t /\ rotate s = rot).
Proof.
  intros Hlow Hin [Et Er].
  apply enumerated_viable in Hin.
  destruct Hin as [_ _ _ Hwe Hhe Hc Hr Hc1 Hr1 _]. subst t rot.
  rewrite <- Hwe, <- Hhe, <- Hc, <- Hr in Hlow.
  lia.
Qed.

(** ** The scenario enumerator *)

(** C5: for any card, usable area and hence any sheet and margins, the
    enumeration loop returns, with at most four scenarios, whose trims are
    among the two candidates and of which no two share a (trim, rotation)
    pair; each has [cols >= 1], [rows >= 1],
    [capacity = cols * rows >= 1], with [cols = floor (usable_w / card_w)]
    and [rows = floor (usable_h / card_h)] on the effective card; a pair
    whose floor is below one on an axis contributes no scenario. *)
Theorem enumerate_scenarios_viable ow oh uw uh :
  exists ss,
    enumerate_scenarios ow oh uw uh = Ok ss /\
    (List.length ss <= 4)%nat /\
    (forall s, In s ss ->
       In (trim_mm s) trim_candidates_mm /\
       (1 <= cols s)%Z /\ (1 <= rows s)%Z /\
       capacity s = (cols s * rows s)%Z /\ (1 <= capacity s)%Z /\
       cols s = Qfloor (uw / card_w_eff s) /\
       rows s = Qfloor (uh / card_h_eff s)) /\
    (forall s1 s2, In s1 ss -> In s2 ss ->
       trim_mm s1 == trim_mm s2 -> rotate s1 = rotate s2 -> s1 = s2) /\
    (forall t (rot : bool) s,
       (Qfloor (uw / (if rot then snd (candidate_card ow oh t)
                      else fst (candidate_card ow oh t))) < 1)%Z \/
       (Qfloor (uh / (if rot then fst (candidate_card ow oh t)
                      else snd (candidate_card ow oh t))) < 1)%Z ->
       In s ss -> ~ (trim_mm s = t /\ rotate s = rot)).
Proof.
  exists (enumerated ow oh uw uh).
  split; [apply enumerate_scenarios_eq|].
  split; [apply length_enumerated|].
  split; [|split].
  - intros s Hs. apply enumerated_viable in Hs.
    destruct Hs as [Ht _ _ _ _ Hc Hr Hc1 Hr1 Hcap].
    repeat split; try assumption.
    rewrite Hcap. nia.
  - intros s1 s2. apply enumerated_pair_unique.
  - intros t rot s. apply enumerated_dropped.
Qed.

(** C6: the card tried for a trim candidate is the original one with
    [2 * trim] taken off each axis when [trim > 0] and the original one when
    [trim = 0]; when either axis of it is not positive the loop body for
    that trim leaves the scenario list as it was, so the enumeration holds
    no scenario of that trim, rotated or not. *)
Theorem candidate_card_trim ow oh uw uh t acc :
  (0 < t ->
   candidate_card ow oh t =
   (ow - 2 * (t * MM_TO_PT), oh - 2 * (t * MM_TO_PT))) /\
  (t == 0 -> candidate_card ow oh t = (ow, oh)) /\
  (fst (candidate_card ow oh t) <= 0 \/ snd (candidate_card ow oh t) <= 0 ->
   try_trim ow oh uw uh t acc = Ok acc /\
   exists ss, enumerate_scenarios ow oh uw uh = Ok ss /\
              forall s, In s ss -> trim_mm s <> t).
Proof.
  split; [|split].
  - intro Ht. unfold candidate_card.
    apply Qltb_lt in Ht. rewrite Ht. reflexivity.
  - intro Ht. unfold candidate_card.
    assert (E : Qltb 0 t = false) by (apply Qltb_ge; rewrite Ht; apply Qle_refl).
    rewrite E. reflexivity.
  - intro Hbad. split.
    + unfold try_trim. destruct (candidate_card ow oh t) as [cw ch].
      simpl in Hbad.
      assert (E : Qleb cw 0 || Qleb ch 0 = true).
      { apply orb_true_iff. destruct Hbad; [left|right]; now apply Qleb_le. }
      rewrite E. reflexivity.
    + exists (enumerated ow oh uw uh).
      split; [apply enumerate_scenarios_eq|].
      intros s Hs Et. apply enumerated_viable in Hs.
      destruct Hs as [_ Hw Hh _ _ _ _ _ _ _].
      subst t. destruct Hbad as [H|H];
        [apply (Qlt_irrefl 0); eapply Qlt_le_trans; [exact Hw|exact H]
        |apply (Qlt_irrefl 0); eapply Qlt_le_trans; [exact Hh|exact H]].
Qed.

Lemma enumerate_scenarios_viable_witness :
  exists ss s,
    enumerate_scenarios (90 * MM_TO_PT) (250 * MM_TO_PT)
      (200 * MM_TO_PT) (287 * MM_TO_PT) = Ok ss /\
    In s ss /\ (1 <= capacity s)%Z /\
    ~ (trim_mm s = 0 /\ rotate s = true).
Proof.
  destruct (enumerate_scenarios_viable (90 * MM_TO_PT) (250 * MM_TO_PT)
              (200 * MM_TO_PT) (287 * MM_TO_PT))
    as (ss & He & _ & Hall & _ & Hdrop).
  pose proof He as He'. vm_compute in He'. injection He' as <-.
  eexists. eexists. split; [exact He|].
  split; [left; reflexivity|].
  split.
  - apply Hall. left. reflexivity.
  - apply Hdrop; [|left; reflexivity].
    left. vm_compute. reflexivity.
Defined.

Lemma candidate_card_trim_witness :
  candidate_card (10 * MM_TO_PT) (3 * MM_TO_PT) 2
  = (10 * MM_TO_PT - 2 * (2 * MM_TO_PT), 3 * MM_TO_PT - 2 * (2 * MM_TO_PT)) /\
  candidate_card (10 * MM_TO_PT) (3 * MM_TO_PT) 0
  = (10 * MM_TO_PT, 3 * MM_TO_PT) /\
  try_trim (10 * MM_TO_PT) (3 * MM_TO_PT) (200 * MM_TO_PT) (287 * MM_TO_PT)
    2 [] = Ok [].
Proof.
  split; [|split].
  - apply (candidate_card_trim (10 * MM_TO_PT) (3 * MM_TO_PT)
             (200 * MM_TO_PT) (287 * MM_TO_PT) 2 []).
    reflexivity.
  - apply (candidate_card_trim (10 * MM_TO_PT) (3 * MM_TO_PT)
             (200 * MM_TO_PT) (287 * MM_TO_PT) 0 []).
    reflexivity.
  - apply (candidate_card_trim (10 * MM_TO_PT) (3 * MM_TO_PT)
             (200 * MM_TO_PT) (287 * MM_TO_PT) 2 []).
    right. vm_compute. discriminate.
Defined.

(** ** The scenario selector *)

Lemma key_lt_iff a b :
  key_lt (sort_key a) (sort_key b) = true <->
  (capacity a < capacity b)%Z \/
  (capacity a = capacity b /\
   (trim_mm b < trim_mm a \/
    (trim_mm a == trim_mm b /\ rotate a = true /\ rotate b = false))).
Proof.
  unfold key_lt, sort_key.
  destruct (Z.eqb_spec (capacity a) (capacity b)) as [Ec|Ec]; simpl.
  - destruct (Qeqb (- trim_mm a) (- trim_mm b)) eqn:Et; simpl.
    + apply Qeqb_eq in Et.
      assert (Et' : trim_mm a == trim_mm b) by lra.
      rewrite andb_true_iff, !negb_true_iff, negb_false_iff.
      split.
      * intros [Ha Hb]. right. split; [assumption|]. right. auto.
      * intros [H|(_ & [H|(_ & Ha & Hb)])]; [lia|lra|auto].
    + apply Qeqb_neq in Et. rewrite Qltb_lt.
      split.
      * intro H. right. split; [assumption|]. left. lra.
      * intros [H|(_ & [H|(H & _)])]; [lia|lra|].
        exfalso. apply Et. lra.
  - rewrite Z.ltb_lt. split.
    + intro H. now left.
    + intros [H|(H & _)]; [assumption|contradiction].
Qed.

Lemma key_ge_iff a b :
  key_ge a b <->
  (capacity b <= capacity a)%Z /\
  (capacity a = capacity b ->
   trim_mm a <= trim_mm b /\
   (trim_mm a == trim_mm b -> rotate a = true -> rotate b = true)).
Proof.
  unfold key_ge. rewrite <- not_true_iff_false, key_lt_iff.
  split.
  - intro H. split.
    + destruct (Z_lt_le_dec (capacity a) (capacity b)); [|assumption].
      exfalso. apply H. now left.
    + intro Ec. split.
      * destruct (Qlt_le_dec (trim_mm b) (trim_mm a)); [|assumption].
        exfalso. apply H. right. auto.
      * intros Et Ha. destruct (rotate b) eqn:Eb; [reflexivity|].
        exfalso. apply H. right. split; [assumption|]. right. auto.
  - intros [Hc Ht] [H|(Ec & [H|(Et & Ha & Hb)])].
    + lia.
    + destruct (Ht Ec) as [Hle _]. lra.
    + destruct (Ht Ec) as [_ Hr]. specialize (Hr Et Ha). congruence.
Qed.

Lemma key_ge_refl a : key_ge a a.
Proof.
  apply key_ge_iff. split; [lia|]. intros _. split; [lra|auto].
Qed.

Lemma key_ge_trans a b c : key_ge a b -> key_ge b c -> key_ge a c.
Proof.
  rewrite !key_ge_iff. intros [Hab Hab'] [Hbc Hbc'].
  split; [lia|]. intro Ec.
  assert (E1 : capacity a = capacity b) by lia.
  assert (E2 : capacity b = capacity c) by lia.
  destruct (Hab' E1) as [Tab Rab], (Hbc' E2) as [Tbc Rbc].
  split; [lra|]. intros Et Ha.
  apply Rbc; [lra|]. apply Rab; [lra|assumption].
Qed.

Lemma key_lt_ge a b :
  key_lt (sort_key a) (sort_key b) = true -> key_ge b a.
Proof.
  rewrite key_lt_iff, key_ge_iff.
  intros [H|(Ec & [H|(Et & Ha & Hb)])].
  - split; [lia|]. intro. lia.
  - split; [lia|]. intros _. split; [lra|]. intro. lra.
  - split; [lia|]. intros _. split; [lra|]. intros _ Hb'. congruence.
Qed.

(** Equal standing and a different pair exclude each other. *)
Lemma key_ge_antisym a b :
  key_ge a b -> key_ge b a ->
  trim_mm a == trim_mm b /\ rotate a = rotate b.
Proof.
  rewrite !key_ge_iff. intros [Hab Hab'] [Hba Hba'].
  assert (Ec : capacity a = capacity b) by lia.
  destruct (Hab' Ec) as [Tab Rab], (Hba' (eq_sym Ec)) as [Tba Rba].
  assert (Et : trim_mm a == trim_mm b) by lra.
  split; [assumption|].
  destruct (rotate a) eqn:Ea, (rotate b) eqn:Eb; try reflexivity.
  - symmetry. now apply Rab.
  - apply Rba; [lra|reflexivity].
Qed.

Lemma insert_desc_perm x l : Permutation (x :: l) (insert_desc x l).
Proof.
  induction l as [|y l IH]; simpl.
  - apply Permutation_refl.
  - destruct (key_lt (sort_key x) (sort_key y)).
    + eapply perm_trans; [apply perm_swap|]. now apply perm_skip.
    + apply Permutation_refl.
Qed.

Lemma sort_desc_perm l : Permutation l (sort_desc l).
Proof.
  induction l as [|x l IH]; simpl.
  - apply perm_nil.
  - eapply perm_trans; [apply perm_skip, IH|apply insert_desc_perm].
Qed.

Lemma insert_desc_sorted x l :
  StronglySorted key_ge l -> StronglySorted key_ge (insert_desc x l).
Proof.
  induction 1 as [|y l Hs IH Hy]; simpl.
  - constructor; constructor.
  - destruct (key_lt (sort_key x) (sort_key y)) eqn:E.
    + constructor; [assumption|].
      apply (Permutation_Forall (insert_desc_perm x l)).
      constructor; [now apply key_lt_ge|assumption].
    + constructor; [now constructor|].
      constructor; [exact E|].
      eapply Forall_impl; [|exact Hy].
      intros z Hz. eapply key_ge_trans; [exact E|exact Hz].
Qed.

Lemma sort_desc_sorted l : StronglySorted key_ge (sort_desc l).
Proof.
  induction l as [|x l IH]; simpl.
  - constructor.
  - now apply insert_desc_sorted.
Qed.

(** On a non-empty list the selector returns the head of the sorted list,
    which is a member that no member sorts after. *)
Lemma select_best_head ss :
  ss <> [] ->
  exists best, select_best ss = Ok best /\ In best ss /\
               forall s, In s ss -> key_ge best s.
Proof.
  intro Hne. unfold select_best.
  pose proof (sort_desc_perm ss) as Hp.
  pose proof (sort_desc_sorted ss) as Hs.
  destruct ss as [|x ss]; [contradiction|].
  destruct (sort_desc (x :: ss)) as [|b rest] eqn:E.
  - apply Permutation_sym, Permutation_nil in Hp. discriminate.
  - exists b. split; [reflexivity|]. split.
    + apply (Permutation_in _ (Permutation_sym Hp)). now left.
    + intros s Hin. apply (Permutation_in _ Hp) in Hin.
      inversion Hs as [|? ? _ Hall]; subst.
      destruct Hin as [<-|Hin]; [apply key_ge_refl|].
      rewrite Forall_forall in Hall. now apply Hall.
Qed.

Lemma select_best_perm ss ss' :
  ss <> [] -> distinct_pairs ss -> Permutation ss ss' ->
  select_best ss = select_best ss'.
Proof.
  intros Hne Hd Hp.
  assert (Hne' : ss' <> []).
  { intros ->. apply Permutation_sym, Permutation_nil in Hp. contradiction. }
  destruct (select_best_head ss Hne) as (b & Eb & Hin & Hmax).
  destruct (select_best_head ss' Hne') as (b' & Eb' & Hin' & Hmax').
  rewrite Eb, Eb'. f_equal.
  apply (Permutation_in _ (Permutation_sym Hp)) in Hin'.
  assert (H1 : key_ge b b') by now apply Hmax.
  assert (H2 : key_ge b' b).
  { apply Hmax'. now apply (Permutation_in _ Hp). }
  destruct (key_ge_antisym _ _ H1 H2) as [Et Er].
  now apply Hd.
Qed.

(** C2: on a non-empty scenario list the selector returns one of its
    members; no member has a larger capacity, a member of equal capacity has
    no smaller trim, and a member of equal capacity and trim is rotated
    whenever the selected one is.  When no two members share a
    (trim, rotation) pair, the selected scenario is the only member that no
    other sorts after, and every reordering of the list selects it again;
    a list returned by the enumeration loop has that property. *)
Theorem select_best_maximal ss (Hne : ss <> []) :
  exists best,
    select_best ss = Ok best /\ In best ss /\
    (forall s, In s ss ->
       (capacity s <= capacity best)%Z /\
       (capacity s = capacity best ->
        trim_mm best <= trim_mm s /\
        (trim_mm s == trim_mm best ->
         rotate best = true -> rotate s = true))) /\
    (distinct_pairs ss ->
       (forall b, In b ss -> (forall s, In s ss -> key_ge b s) -> b = best) /\
       (forall ss', Permutation ss ss' -> select_best ss' = Ok best)) /\
    (forall ow oh uw uh,
       enumerate_scenarios ow oh uw uh = Ok ss -> distinct_pairs ss).
Proof.
  destruct (select_best_head ss Hne) as (best & Eb & Hin & Hmax).
  exists best. split; [assumption|]. split; [assumption|].
  split; [|split].
  - intros s Hs. specialize (Hmax s Hs). apply key_ge_iff in Hmax.
    destruct Hmax as [Hc Ht]. split; [assumption|].
    intro Ec. destruct (Ht (eq_sym Ec)) as [Hle Hr].
    split; [assumption|]. intros Et. apply Hr. lra.
  - intro Hd. split.
    + intros b Hb Hbmax.
      destruct (key_ge_antisym b best (Hbmax _ Hin) (Hmax _ Hb)) as [Et Er].
      now apply Hd.
    + intros ss' Hp. rewrite <- Eb. symmetry.
      now apply select_best_perm.
  - intros ow oh uw uh He. rewrite enumerate_scenarios_eq in He.
    injection He as <-. intros s1 s2. apply enumerated_pair_unique.
Qed.

Lemma select_best_maximal_witness :
  exists ss best,
    enumerate_scenarios (90 * MM_TO_PT) (50 * MM_TO_PT)
      (200 * MM_TO_PT) (287 * MM_TO_PT) = Ok ss /\
    select_best ss = Ok best /\ select_best (rev ss) = Ok best /\
    capacity best = 12%Z /\ trim_mm best = 0 /\ rotate best = true.
Proof.
  pose (ss := enumerated (90 * MM_TO_PT) (50 * MM_TO_PT)
                (200 * MM_TO_PT) (287 * MM_TO_PT)).
  assert (Hne : ss <> []) by (vm_compute; discriminate).
  destruct (select_best_maximal ss Hne) as (best & Eb & _ & _ & Hdet & Hen).
  exists ss, best.
  assert (He : enumerate_scenarios (90 * MM_TO_PT) (50 * MM_TO_PT)
                 (200 * MM_TO_PT) (287 * MM_TO_PT) = Ok ss)
    by (vm_compute; reflexivity).
  split; [exact He|]. split; [exact Eb|].
  split; [apply (Hdet (Hen _ _ _ _ He)), Permutation_rev|].
  pose proof Eb as Eb'. vm_compute in Eb'. injection Eb' as <-.
  repeat split; reflexivity.
Defined.

(** ** Cropping *)

(** C10: the crop always returns or raises, and leaves the page in one of
    two states.  For a trim of zero or less it returns and the page is as it
    was.  For a positive trim that leaves a box of no width or no height it
    raises the over-trim error and the page is as it was; it raises nothing
    else, so after every raise the page is as it was.  The page differs from
    what it was only after a return, and then the new box is the old one
    moved in by the trim on all four sides and has positive width and
    height. *)
Theorem crop_page_all_sides_atomic page t :
  let page' := fst (crop_page_all_sides page t) in
  let r := snd (crop_page_all_sides page t) in
  let tp := t * MM_TO_PT in
  let box := mediabox page in
  (t <= 0 -> r = Ok tt /\ page' = page) /\
  (0 < t ->
   right box - tp <= left box + tp \/ top box - tp <= bottom box + tp ->
   r = Raise OverTrimmed /\ page' = page) /\
  (0 < t ->
   left box + tp < right box - tp -> bottom box + tp < top box - tp ->
   r = Ok tt /\
   mediabox page' =
   mkRect (left box + tp) (bottom box + tp) (right box - tp) (top box - tp)) /\
  (forall e, r = Raise e -> e = OverTrimmed /\ page' = page) /\
  (page' <> page ->
   r = Ok tt /\ 0 < width (mediabox page') /\ 0 < height (mediabox page')).
Proof.
  unfold crop_page_all_sides. cbv zeta.
  destruct (Qleb t 0) eqn:Et; simpl.
  { apply Qleb_le in Et.
    split; [|split; [|split; [|split]]].
    - auto.
    - intros; exfalso; lra.
    - intros; exfalso; lra.
    - intros e H. discriminate.
    - intro H. exfalso. now apply H. }
  apply Qleb_gt in Et.
  destruct (Qleb (right (mediabox page) - t * MM_TO_PT)
              (left (mediabox page) + t * MM_TO_PT)) eqn:Ex; simpl.
  { apply Qleb_le in Ex.
    split; [|split; [|split; [|split]]].
    - intros; exfalso; lra.
    - auto.
    - intros; exfalso; lra.
    - intros e [= <-]. auto.
    - intro H. exfalso. now apply H. }
  apply Qleb_gt in Ex.
  destruct (Qleb (top (mediabox page) - t * MM_TO_PT)
              (bottom (mediabox page) + t * MM_TO_PT)) eqn:Ey; simpl.
  { apply Qleb_le in Ey.
    split; [|split; [|split; [|split]]].
    - intros; exfalso; lra.
    - auto.
    - intros; exfalso; lra.
    - intros e [= <-]. auto.
    - intro H. exfalso. now apply H. }
  apply Qleb_gt in Ey.
  split; [|split; [|split; [|split]]].
  - intros; exfalso; lra.
  - intros _ [H|H]; exfalso; lra.
  - auto.
  - intros e H. discriminate.
  - intros _. unfold width, height; simpl. repeat split; lra.
Qed.

Lemma crop_page_all_sides_atomic_witness :
  (snd (crop_page_all_sides (card_page 90 50) 0) = Ok tt /\
   fst (crop_page_all_sides (card_page 90 50) 0) = card_page 90 50) /\
  (snd (crop_page_all_sides (card_page 90 50) 30) = Raise OverTrimmed /\
   fst (crop_page_all_sides (card_page 90 50) 30) = card_page 90 50) /\
  (snd (crop_page_all_sides (card_page 90 50) 2) = Ok tt /\
   0 < width (mediabox (fst (crop_page_all_sides (card_page 90 50) 2)))).
Proof.
  split; [|split].
  - apply (crop_page_all_sides_atomic (card_page 90 50) 0).
    vm_compute. discriminate.
  - apply (crop_page_all_sides_atomic (card_page 90 50) 30).
    + reflexivity.
    + right. vm_compute. discriminate.
  - destruct (crop_page_all_sides_atomic (card_page 90 50) 2)
      as (_ & _ & _ & _ & H).
    destruct H as (Hr & Hw & _).
    + vm_compute. discriminate.
    + split; [exact Hr|exact Hw].
Defined.

(** ** From the enumerated card to the cropped page *)

Lemma floor_times_le u c :
  0 < c -> inject_Z (Qfloor (u / c)) * c <= u.
Proof.
  intro Hc.
  assert (H : inject_Z (Qfloor (u / c)) * c <= (u / c) * c).
  { apply Qmult_le_compat_r; [apply Qfloor_le|lra]. }
  assert (E : (u / c) * c == u) by (field; lra).
  lra.
Qed.

Lemma floor_div_mono u1 u2 c :
  0 < c -> u2 <= u1 -> (Qfloor (u2 / c) <= Qfloor (u1 / c))%Z.
Proof.
  intros Hc Hu. apply Qfloor_resp_le.
  unfold Qdiv. apply Qmult_le_compat_r; [assumption|].
  apply Qlt_le_weak, Qinv_lt_0_compat, Hc.
Qed.

(** A crop that returns leaves a page of the size the enumerator tried. *)
Lemma crop_page_all_sides_size page t page' :
  crop_page_all_sides page t = (page', Ok tt) ->
  width (mediabox page') ==
    fst (candidate_card (width (mediabox page)) (height (mediabox page)) t) /\
  height (mediabox page') ==
    snd (candidate_card (width (mediabox page)) (height (mediabox page)) t).
Proof.
  unfold crop_page_all_sides, candidate_card. cbv zeta.
  destruct (Qleb t 0) eqn:Et.
  - intros [= <-]. apply Qleb_le in Et.
    assert (E : Qltb 0 t = false) by now apply Qltb_ge.
    rewrite E. simpl. split; reflexivity.
  - apply Qleb_gt in Et.
    assert (E : Qltb 0 t = true) by now apply Qltb_lt.
    rewrite E. simpl.
    destruct (Qleb (right (mediabox page) - t * MM_TO_PT)
                (left (mediabox page) + t * MM_TO_PT)
              || Qleb (top (mediabox page) - t * MM_TO_PT)
                   (bottom (mediabox page) + t * MM_TO_PT)); [discriminate|].
    intros [= <-]. unfold width, height. simpl. split; ring.
Qed.

Lemma apply_trim_size b front back front' back' :
  apply_trim b front back = Ok (front', back') ->
  width (mediabox front') ==
    fst (candidate_card (width (mediabox front)) (height (mediabox front))
           (trim_mm b)) /\
  height (mediabox front') ==
    snd (candidate_card (width (mediabox front)) (height (mediabox front))
           (trim_mm b)).
Proof.
  unfold apply_trim.
  destruct (Qltb 0 (trim_mm b)) eqn:Et.
  - destruct (crop_page_all_sides front (trim_mm b)) as [f1 r1] eqn:E1.
    destruct r1 as [[]|e]; [|discriminate]. simpl.
    destruct (crop_page_all_sides back (trim_mm b)) as [b1 r2] eqn:E2.
    destruct r2 as [[]|e]; [|discriminate]. simpl.
    intros [= <- <-]. now apply crop_page_all_sides_size.
  - intros [= <- <-]. unfold candidate_card. rewrite Et. simpl.
    split; reflexivity.
Qed.

(** The grid of a viable scenario fits the usable area, also when measured
    with the size of the cropped page. *)
Lemma viable_grid_fits ow oh uw uh s w h :
  viable ow oh uw uh s ->
  w == fst (candidate_card ow oh (trim_mm s)) ->
  h == snd (candidate_card ow oh (trim_mm s)) ->
  inject_Z (cols s) * (if rotate s then h else w) <= uw /\
  inject_Z (rows s) * (if rotate s then w else h) <= uh.
Proof.
  intros [_ Hw Hh Ewe Ehe Ec Er _ _ _] Ew Eh.
  assert (Hwe : 0 < card_w_eff s)
    by (rewrite Ewe; destruct (rotate s); assumption).
  assert (Hhe : 0 < card_h_eff s)
    by (rewrite Ehe; destruct (rotate s); assumption).
  pose proof (floor_times_le uw _ Hwe) as Fw.
  pose proof (floor_times_le uh _ Hhe) as Fh.
  rewrite <- Ec in Fw. rewrite <- Er in Fh.
  assert (E1 : (if rotate s then h else w) == card_w_eff s).
  { rewrite Ewe. destruct (rotate s); assumption. }
  assert (E2 : (if rotate s then w else h) == card_h_eff s).
  { rewrite Ehe. destruct (rotate s); assumption. }
  rewrite E1, E2. split; assumption.
Qed.

(** ** Runs of the program *)

Lemma get_sheet_size_raises name e :
  get_sheet_size name = Raise e -> e = UnknownFormat.
Proof.
  unfold get_sheet_size.
  destruct (lookup (upper name) PAPER_SIZES_MM) as [[w h]|];
    [discriminate|]. now intros [= <-].
Qed.

Lemma select_best_raises ss e :
  select_best ss = Raise e -> e = NoViableScenario /\ ss = [].
Proof.
  destruct ss as [|x ss].
  - simpl. intros [= <-]. auto.
  - intro H.
    destruct (select_best_head (x :: ss)) as (b & Eb & _); [discriminate|].
    congruence.
Qed.

Lemma crop_page_all_sides_raises page t page' e :
  crop_page_all_sides page t = (page', Raise e) ->
  e = OverTrimmed /\ page' = page.
Proof.
  unfold crop_page_all_sides. cbv zeta.
  destruct (Qleb t 0); [discriminate|]. cbn [lower_left upper_right].
  destruct (_ || _); [|discriminate].
  intros [= <- <-]. auto.
Qed.

Lemma apply_trim_raises b front back e :
  apply_trim b front back = Raise e -> e = OverTrimmed.
Proof.
  unfold apply_trim.
  destruct (Qltb 0 (trim_mm b)); [|discriminate].
  destruct (crop_page_all_sides front (trim_mm b)) as [f1 r1] eqn:E1.
  destruct r1 as [[]|e1]; cbn [bind].
  - destruct (crop_page_all_sides back (trim_mm b)) as [b1 r2] eqn:E2.
    destruct r2 as [[]|e2]; cbn [bind]; [discriminate|].
    intros [= <-]. now apply crop_page_all_sides_raises in E2.
  - intros [= <-]. now apply crop_page_all_sides_raises in E1.
Qed.

Lemma main_Ok_inv args reader out :
  main args reader = Ok out ->
  exists front back sheet_w sheet_h,
    run_ok args reader out front back sheet_w sheet_h.
Proof.
  unfold main, usable_w_of, usable_h_of.
  destruct (min_margins_mm args) as [mx my] eqn:Em.
  destruct reader as [|front [|back rest]]; try discriminate.
  destruct (get_sheet_size (arg_paper args)) as [[sw sh]|e] eqn:Es;
    cbn [bind]; [|discriminate].
  destruct (Qleb (sw - 2 * (mx * MM_TO_PT)) 0) eqn:Eu1; [discriminate|].
  destruct (Qleb (sh - 2 * (my * MM_TO_PT)) 0) eqn:Eu2; [discriminate|].
  cbn [orb]. rewrite enumerate_scenarios_eq. cbn [bind].
  destruct (select_best _) as [b|e] eqn:Eb; cbn [bind]; [|discriminate].
  destruct (apply_trim b front back) as [[f' b']|e] eqn:Ea;
    cbn [bind]; [|discriminate].
  match goal with
  | |- (if ?c then _ else _) = _ -> _ => destruct c eqn:Ec; [discriminate|]
  end.
  apply orb_false_iff in Ec. destruct Ec as [Ec1 Ec2].
  cbn [impose_side app]. intros [= <-].
  apply Qleb_gt in Eu1, Eu2. apply Qltb_ge in Ec1, Ec2.
  exists front, back, sw, sh.
  constructor; unfold usable_w_of, usable_h_of; rewrite ?Em;
    cbn [best front_after back_after final_card_w_eff
         final_card_h_eff margin_x margin_y written fst snd];
    try assumption; try reflexivity.
  exists rest. reflexivity.
Qed.

(** Every run is one of the listed ones. *)
Lemma main_runs args reader : main_run args reader (main args reader).
Proof.
  destruct (main args reader) as [out|e] eqn:E.
  { destruct (main_Ok_inv _ _ _ E) as (f & b & sw & sh & H).
    eapply run_returns; eassumption. }
  revert E. unfold main.
  destruct (min_margins_mm args) as [mx my] eqn:Em.
  destruct reader as [|front [|back rest]];
    try (intros [= <-]; apply run_too_few; simpl; lia).
  destruct (get_sheet_size (arg_paper args)) as [[sw sh]|e0] eqn:Es;
    cbn [bind].
  2:{ intros [= <-]. pose proof (get_sheet_size_raises _ _ Es) as ->.
      eapply run_unknown_format; [reflexivity|assumption]. }
  assert (Uw : sw - 2 * (mx * MM_TO_PT) = usable_w_of args sw)
    by (unfold usable_w_of; now rewrite Em).
  assert (Uh : sh - 2 * (my * MM_TO_PT) = usable_h_of args sh)
    by (unfold usable_h_of; now rewrite Em).
  rewrite Uw, Uh.
  destruct (Qleb (usable_w_of args sw) 0) eqn:Eu1.
  { intros [= <-]. apply Qleb_le in Eu1.
    eapply run_margin_too_large; [reflexivity|eassumption|now left]. }
  destruct (Qleb (usable_h_of args sh) 0) eqn:Eu2.
  { intros [= <-]. apply Qleb_le in Eu2.
    eapply run_margin_too_large; [reflexivity|eassumption|now right]. }
  apply Qleb_gt in Eu1, Eu2.
  cbn [orb]. rewrite enumerate_scenarios_eq. cbn [bind].
  destruct (select_best _) as [b|e1] eqn:Eb; cbn [bind].
  2:{ intros [= <-]. apply select_best_raises in Eb. destruct Eb as [-> Enil].
      eapply run_no_viable_scenario; try eassumption. reflexivity. }
  destruct (apply_trim b front back) as [[f' b']|e2] eqn:Ea; cbn [bind].
  2:{ intros [= <-]. pose proof (apply_trim_raises _ _ _ _ Ea) as ->.
      eapply run_over_trimmed; try eassumption. reflexivity. }
  match goal with
  | |- (if ?c then _ else _) = _ -> _ => destruct c eqn:Ec
  end.
  2:{ cbn [impose_side app]. discriminate. }
  intros [= <-]. apply orb_true_iff in Ec.
  eapply run_invariant_violation; try eassumption; [reflexivity|].
  rewrite Em. cbn [fst snd].
  destruct Ec as [Ec|Ec]; apply Qltb_lt in Ec; [left|right]; exact Ec.
Qed.

Lemma select_best_Ok ss b :
  select_best ss = Ok b -> In b ss /\ forall s, In s ss -> key_ge b s.
Proof.
  intro H. destruct ss as [|x ss]; [discriminate|].
  destruct (select_best_head (x :: ss)) as (b' & Eb & Hin & Hmax);
    [discriminate|].
  assert (b' = b) by congruence. subst b'. auto.
Qed.

(** The grid of the selected scenario, measured on the cropped page, fits
    the usable area. *)
Lemma selected_grid_fits b front back front' back' uw uh :
  select_best
    (enumerated (width (mediabox front)) (height (mediabox front)) uw uh)
  = Ok b ->
  apply_trim b front back = Ok (front', back') ->
  inject_Z (cols b) *
    (if rotate b then height (mediabox front') else width (mediabox front'))
  <= uw /\
  inject_Z (rows b) *
    (if rotate b then width (mediabox front') else height (mediabox front'))
  <= uh.
Proof.
  intros Hb Ha.
  apply select_best_Ok in Hb. destruct Hb as [Hin _].
  apply enumerated_viable in Hin.
  destruct (apply_trim_size _ _ _ _ _ Ha) as [Ew Eh].
  eapply viable_grid_fits; eassumption.
Qed.

(** ** The sheet compositor *)

(** C3, run in binary64 at two pages of media box
    [[3e15 0 3e15+294.5 141.73]] on A4 with the default margins of 5 mm.
    The enumerator tries the 2 mm trim with the card width
    [orig_w - 2 * trim_pts] (283.16 pt); the crop leaves a page whose width,
    read back as [right - left], is greater (283.5 pt), the coordinates
    [llx + trim_pts] and [urx - trim_pts] being rounded to multiples of
    0.5; the margin computed from the width read back is below the minimum
    less 0.01 pt, and the run raises the invariant error.  With the same
    page at the origin the run selects the same grid (trim 2 mm, no
    rotation, 2 by 6) and passes the check. *)
Theorem float_run_raises_invariant_violation :
  let box := F64.mediabox F64.far_page in
  let enumerated_w :=
    fst (F64.candidate_card (F64.width box) (F64.height box) PrimFloat.two) in
  let cropped :=
    fst (F64.crop_page_all_sides F64.far_page PrimFloat.two) in
  F64.width box = F64.width (F64.mediabox F64.near_page) /\
  snd (F64.crop_page_all_sides F64.far_page PrimFloat.two) = Ok tt /\
  PrimFloat.ltb enumerated_w (F64.width (F64.mediabox cropped)) = true /\
  F64.main_plan F64.default_args [F64.far_page; F64.far_page]
  = Raise InvariantViolation /\
  exists plan,
    F64.main_plan F64.default_args [F64.near_page; F64.near_page] = Ok plan /\
    F64.trim_mm (F64.best plan) = PrimFloat.two /\
    F64.rotate (F64.best plan) = false /\
    F64.cols (F64.best plan) = 2%Z /\ F64.rows (F64.best plan) = 6%Z.
Proof.
  cbv zeta.
  split; [vm_compute; reflexivity|].
  split; [vm_compute; reflexivity|].
  split; [vm_compute; reflexivity|].
  split; [vm_compute; reflexivity|].
  eexists.
  split; [vm_compute; reflexivity|].
  split; [vm_compute; reflexivity|].
  split; [vm_compute; reflexivity|].
  split; vm_compute; reflexivity.
Qed.

(** ** Failures of a run *)

Lemma trim_scenarios_nil_iff ow oh uw uh t :
  trim_scenarios ow oh uw uh t = [] <->
  forall rot : bool,
    fst (candidate_card ow oh t) <= 0 \/ snd (candidate_card ow oh t) <= 0 \/
    (Qfloor (uw / (if rot then snd (candidate_card ow oh t)
                   else fst (candidate_card ow oh t))) < 1)%Z \/
    (Qfloor (uh / (if rot then fst (candidate_card ow oh t)
                   else snd (candidate_card ow oh t))) < 1)%Z.
Proof.
  unfold trim_scenarios.
  destruct (candidate_card ow oh t) as [cw ch]. cbn [fst snd].
  destruct (Qleb cw 0) eqn:Ew; cbn [orb].
  { apply Qleb_le in Ew. split; auto. }
  destruct (Qleb ch 0) eqn:Eh; cbn [orb].
  { apply Qleb_le in Eh. split; auto. }
  apply Qleb_gt in Ew, Eh.
  split.
  - intros H rot. apply app_eq_nil in H. destruct H as [H1 H2].
    right. right. apply (grid_scenario_None t cw ch uw uh rot).
    destruct rot.
    + destruct (grid_scenario t cw ch uw uh true); [discriminate|reflexivity].
    + destruct (grid_scenario t cw ch uw uh false); [discriminate|reflexivity].
  - intro H.
    assert (G : forall rot, grid_scenario t cw ch uw uh rot = None).
    { intro rot. apply grid_scenario_None.
      destruct (H rot) as [H'|[H'|H']]; [exfalso; lra|exfalso; lra|exact H']. }
    rewrite !G. reflexivity.
Qed.

Lemma enumerated_nil_iff ow oh uw uh :
  enumerated ow oh uw uh = [] <->
  forall t (rot : bool), In t trim_candidates_mm ->
    fst (candidate_card ow oh t) <= 0 \/ snd (candidate_card ow oh t) <= 0 \/
    (Qfloor (uw / (if rot then snd (candidate_card ow oh t)
                   else fst (candidate_card ow oh t))) < 1)%Z \/
    (Qfloor (uh / (if rot then fst (candidate_card ow oh t)
                   else snd (candidate_card ow oh t))) < 1)%Z.
Proof.
  unfold enumerated, trim_candidates_mm. split.
  - intros H t rot Ht. apply app_eq_nil in H. destruct H as [H0 H2].
    destruct Ht as [<-|[<-|[]]].
    + now apply trim_scenarios_nil_iff.
    + now apply trim_scenarios_nil_iff.
  - intro H.
    assert (H0 : trim_scenarios ow oh uw uh 0 = []).
    { apply trim_scenarios_nil_iff. intro rot. apply H. simpl. auto. }
    assert (H2 : trim_scenarios ow oh uw uh 2 = []).
    { apply trim_scenarios_nil_iff. intro rot. apply H. simpl. auto. }
    now rewrite H0, H2.
Qed.

Ltac same_run :=
  repeat match goal with
  | H1 : ?r = _ :: _ :: _, H2 : ?r = _ :: _ :: _ |- _ =>
      rewrite H1 in H2; injection H2 as <- <- <-
  | H1 : get_sheet_size ?a = Ok _, H2 : get_sheet_size ?a = Ok _ |- _ =>
      rewrite H1 in H2; injection H2 as <- <-
  | H1 : get_sheet_size ?a = Ok _, H2 : get_sheet_size ?a = Raise _ |- _ =>
      rewrite H1 in H2; discriminate H2
  | H1 : ?r = _ :: _ :: _, H2 : (List.length ?r < 2)%nat |- _ =>
      rewrite H1 in H2; simpl in H2; lia
  end.

Lemma main_margin_too_large args reader :
  main args reader = Raise MarginTooLarge <->
  exists front back rest sheet_w sheet_h,
    reader = front :: back :: rest /\
    get_sheet_size (arg_paper args) = Ok (sheet_w, sheet_h) /\
    (usable_w_of args sheet_w <= 0 \/ usable_h_of args sheet_h <= 0).
Proof.
  pose proof (main_runs args reader) as H. split.
  - intro E. rewrite E in H.
    inversion H as [| |f b rest sw sh Hr Hs Hu| | | |].
    exists f, b, rest, sw, sh. auto.
  - intros (f & b & rest & sw & sh & Hr & Hs & Hu).
    destruct H as [Hl|f' b' rest' Hr' Hs'|f' b' rest' sw' sh' Hr' Hs' Hu'
                  |f' b' rest' sw' sh' Hr' Hs' Hw' Hh' He'
                  |f' b' rest' sw' sh' bst Hr' Hs' Hw' Hh' Hb' Ha'
                  |f' b' rest' sw' sh' bst f2 b2 Hr' Hs' Hw' Hh' Hb' Ha' Hlow
                  |out f' b' sw' sh' [[rest' Hr'] Hs' Hw' Hh' _ _ _ _ _ _ _ _ _]];
      same_run; try reflexivity; exfalso; destruct Hu; lra.
Qed.

Lemma main_no_viable_scenario args reader :
  main args reader = Raise NoViableScenario <->
  exists front back rest sheet_w sheet_h,
    reader = front :: back :: rest /\
    get_sheet_size (arg_paper args) = Ok (sheet_w, sheet_h) /\
    0 < usable_w_of args sheet_w /\ 0 < usable_h_of args sheet_h /\
    enumerated (width (mediabox front)) (height (mediabox front))
      (usable_w_of args sheet_w) (usable_h_of args sheet_h) = [].
Proof.
  pose proof (main_runs args reader) as H. split.
  - intro E. rewrite E in H.
    inversion H as [| | |f b rest sw sh Hr Hs Hw Hh He| | |].
    exists f, b, rest, sw, sh. auto.
  - intros (f & b & rest & sw & sh & Hr & Hs & Hw & Hh & He).
    destruct H as [Hl|f' b' rest' Hr' Hs'|f' b' rest' sw' sh' Hr' Hs' Hu'
                  |f' b' rest' sw' sh' Hr' Hs' Hw' Hh' He'
                  |f' b' rest' sw' sh' bst Hr' Hs' Hw' Hh' Hb' Ha'
                  |f' b' rest' sw' sh' bst f2 b2 Hr' Hs' Hw' Hh' Hb' Ha' Hlow
                  |out f' b' sw' sh' [[rest' Hr'] Hs' Hw' Hh' Hb' _ _ _ _ _ _ _ _]];
      same_run; try reflexivity; exfalso;
      try (destruct Hu'; lra);
      rewrite He in Hb'; discriminate.
Qed.

(** C7: a run raises the margin-too-large error exactly when it has two
    input pages, a known sheet format, and a usable area (sheet less twice
    the minimum margin) that is not positive on either axis; the card plays
    no part, the test being made once before the enumeration.  It raises the
    no-viable-scenario error exactly when the usable area is positive on
    both axes and the enumeration returns the empty list, which is when each
    of the four (trim, rotation) pairs has a non-positive card axis or a
    grid without a column or a row.  The two errors are different. *)
Theorem margin_too_large_exactly args reader :
  (main args reader = Raise MarginTooLarge <->
   exists front back rest sheet_w sheet_h,
     reader = front :: back :: rest /\
     get_sheet_size (arg_paper args) = Ok (sheet_w, sheet_h) /\
     (usable_w_of args sheet_w <= 0 \/ usable_h_of args sheet_h <= 0)) /\
  (main args reader = Raise NoViableScenario <->
   exists front back rest sheet_w sheet_h,
     reader = front :: back :: rest /\
     get_sheet_size (arg_paper args) = Ok (sheet_w, sheet_h) /\
     0 < usable_w_of args sheet_w /\ 0 < usable_h_of args sheet_h /\
     let ow := width (mediabox front) in
     let oh := height (mediabox front) in
     let uw := usable_w_of args sheet_w in
     let uh := usable_h_of args sheet_h in
     enumerate_scenarios ow oh uw uh = Ok [] /\
     forall t (rot : bool), In t trim_candidates_mm ->
       fst (candidate_card ow oh t) <= 0 \/
       snd (candidate_card ow oh t) <= 0 \/
       (Qfloor (uw / (if rot then snd (candidate_card ow oh t)
                      else fst (candidate_card ow oh t))) < 1)%Z \/
       (Qfloor (uh / (if rot then fst (candidate_card ow oh t)
                      else snd (candidate_card ow oh t))) < 1)%Z) /\
  MarginTooLarge <> NoViableScenario.
Proof.
  split; [apply main_margin_too_large|]. split; [|discriminate].
  rewrite main_no_viable_scenario. split.
  - intros (f & b & rest & sw & sh & Hr & Hs & Hw & Hh & He).
    exists f, b, rest, sw, sh. repeat (split; [assumption|]).
    cbv zeta. rewrite enumerate_scenarios_eq, He.
    split; [reflexivity|]. now apply enumerated_nil_iff.
  - intros (f & b & rest & sw & sh & Hr & Hs & Hw & Hh & He & _).
    exists f, b, rest, sw, sh. repeat (split; [assumption|]).
    rewrite enumerate_scenarios_eq in He. now injection He.
Qed.

Lemma margin_too_large_exactly_witness :
  main (args_with_margins "A4" 200 5) [card_page 90 50; card_page 90 50]
  = Raise MarginTooLarge /\
  main default_args [card_page 400 500; card_page 400 500]
  = Raise NoViableScenario.
Proof.
  split.
  - apply (margin_too_large_exactly (args_with_margins "A4" 200 5)
             [card_page 90 50; card_page 90 50]).
    exists (card_page 90 50), (card_page 90 50), [].
    eexists. eexists. split; [reflexivity|]. split; [reflexivity|].
    left. vm_compute. discriminate.
  - apply (margin_too_large_exactly default_args
             [card_page 400 500; card_page 400 500]).
    exists (card_page 400 500), (card_page 400 500), [].
    eexists. eexists. split; [reflexivity|]. split; [reflexivity|].
    split; [reflexivity|]. split; [reflexivity|].
    cbv zeta. split; [vm_compute; reflexivity|].
    intros t rot [<-|[<-|[]]]; destruct rot; right; right;
      vm_compute; auto.
Defined.

(** ** Capacity against the margins *)

Lemma MM_TO_PT_nonneg : 0 <= MM_TO_PT.
Proof. vm_compute. discriminate. Qed.

(** A scenario that is viable in a usable area stays viable, with at least
    as many columns and rows, in a larger one. *)
Lemma enumerated_mono ow oh uw1 uh1 uw2 uh2 s2 :
  uw2 <= uw1 -> uh2 <= uh1 ->
  In s2 (enumerated ow oh uw2 uh2) ->
  exists s1,
    In s1 (enumerated ow oh uw1 uh1) /\
    trim_mm s1 = trim_mm s2 /\ rotate s1 = rotate s2 /\
    (cols s2 <= cols s1)%Z /\ (rows s2 <= rows s1)%Z /\
    (capacity s2 <= capacity s1)%Z.
Proof.
  intros Hw Hh Hin.
  apply In_enumerated in Hin. destruct Hin as (t & Ht & Hin).
  apply In_trim_scenarios in Hin. destruct Hin as (Hcw & Hch & rot & G2).
  set (cw := fst (candidate_card ow oh t)) in *.
  set (ch := snd (candidate_card ow oh t)) in *.
  pose proof (grid_scenario_Some _ _ _ _ _ _ _ G2)
    as (Et2 & Er2 & Ew2 & Eh2 & Ec2 & Erw2 & Hc2 & Hr2 & Ecap2 & _).
  assert (Hwe : 0 < (if rot then ch else cw)) by (destruct rot; assumption).
  assert (Hhe : 0 < (if rot then cw else ch)) by (destruct rot; assumption).
  pose proof (floor_div_mono uw1 uw2 _ Hwe Hw) as Mc.
  pose proof (floor_div_mono uh1 uh2 _ Hhe Hh) as Mr.
  rewrite Ew2 in Ec2. rewrite Eh2 in Erw2.
  destruct (grid_scenario t cw ch uw1 uh1 rot) as [s1|] eqn:G1.
  - pose proof (grid_scenario_Some _ _ _ _ _ _ _ G1)
      as (Et1 & Er1 & Ew1 & Eh1 & Ec1 & Erw1 & Hc1 & Hr1 & Ecap1 & _).
    rewrite Ew1 in Ec1. rewrite Eh1 in Erw1.
    exists s1. split.
    + apply In_enumerated. exists t. split; [assumption|].
      apply In_trim_scenarios. split; [assumption|]. split; [assumption|].
      exists rot. exact G1.
    + split; [congruence|]. split; [congruence|].
      assert (cols s2 <= cols s1)%Z by (rewrite Ec1, Ec2; exact Mc).
      assert (rows s2 <= rows s1)%Z by (rewrite Erw1, Erw2; exact Mr).
      split; [assumption|]. split; [assumption|].
      rewrite Ecap1, Ecap2. nia.
  - apply grid_scenario_None in G1. exfalso.
    rewrite <- Ec2 in Mc. rewrite <- Erw2 in Mr. lia.
Qed.

(** C8: with the same paper and the same input pages, when neither minimum
    margin is lowered and both runs return, the run with the larger margins
    selects a scenario of no greater capacity. *)
Theorem capacity_monotone_in_margins args1 args2 reader out1 out2 :
  arg_paper args1 = arg_paper args2 ->
  fst (min_margins_mm args1) <= fst (min_margins_mm args2) ->
  snd (min_margins_mm args1) <= snd (min_margins_mm args2) ->
  main args1 reader = Ok out1 ->
  main args2 reader = Ok out2 ->
  (capacity (best out2) <= capacity (best out1))%Z.
Proof.
  intros Hp Hx Hy E1 E2.
  destruct (main_Ok_inv _ _ _ E1) as (f1 & b1 & sw1 & sh1 & R1).
  destruct (main_Ok_inv _ _ _ E2) as (f2 & b2 & sw2 & sh2 & R2).
  destruct R1 as [[rest1 Hr1] Hs1 _ _ Hb1 _ _ _ _ _ _ _ _].
  destruct R2 as [[rest2 Hr2] Hs2 _ _ Hb2 _ _ _ _ _ _ _ _].
  rewrite Hr1 in Hr2. injection Hr2 as <- <- <-.
  rewrite Hp, Hs2 in Hs1. injection Hs1 as <- <-.
  apply select_best_Ok in Hb1, Hb2.
  destruct Hb1 as [_ Hmax1], Hb2 as [Hin2 _].
  pose proof (Qmult_le_compat_r _ _ MM_TO_PT Hx MM_TO_PT_nonneg) as Hx'.
  pose proof (Qmult_le_compat_r _ _ MM_TO_PT Hy MM_TO_PT_nonneg) as Hy'.
  assert (Uw : usable_w_of args2 sw2 <= usable_w_of args1 sw2)
    by (unfold usable_w_of; lra).
  assert (Uh : usable_h_of args2 sh2 <= usable_h_of args1 sh2)
    by (unfold usable_h_of; lra).
  destruct (enumerated_mono _ _ _ _ _ _ _ Uw Uh Hin2)
    as (s1 & Hin1 & _ & _ & _ & _ & Hcap).
  specialize (Hmax1 s1 Hin1). apply key_ge_iff in Hmax1.
  destruct Hmax1 as [Hle _]. lia.
Qed.

Lemma capacity_monotone_in_margins_witness :
  exists out1 out2,
    main (args_with_margins "A4" 5 5) [card_page 90 50; card_page 90 50]
    = Ok out1 /\
    main (args_with_margins "A4" 10 20) [card_page 90 50; card_page 90 50]
    = Ok out2 /\
    (capacity (best out2) <= capacity (best out1))%Z.
Proof.
  destruct (main (args_with_margins "A4" 5 5)
              [card_page 90 50; card_page 90 50])
    as [out1|e] eqn:E1; [|vm_compute in E1; discriminate E1].
  destruct (main (args_with_margins "A4" 10 20)
              [card_page 90 50; card_page 90 50])
    as [out2|e] eqn:E2; [|vm_compute in E2; discriminate E2].
  exists out1, out2. split; [reflexivity|]. split; [reflexivity|].
  apply (capacity_monotone_in_margins
           (args_with_margins "A4" 5 5) (args_with_margins "A4" 10 20)
           [card_page 90 50; card_page 90 50] out1 out2).
  - reflexivity.
  - vm_compute. discriminate.
  - vm_compute. discriminate.
  - exact E1.
  - exact E2.
Defined.

(** ** The placement emitter *)

Lemma In_range n i : In i (range n) <-> (0 <= i < n)%Z.
Proof.
  unfold range. rewrite in_map_iff. split.
  - intros (k & <- & Hk). apply in_seq in Hk. lia.
  - intros Hi. exists (Z.to_nat i). split; [lia|]. apply in_seq. lia.
Qed.

Lemma In_cells cols rows col row :
  In (col, row) (cells cols rows) <->
  (0 <= col < cols)%Z /\ (0 <= row < rows)%Z.
Proof.
  unfold cells. rewrite in_flat_map. split.
  - intros (r & Hr & Hc). apply in_map_iff in Hc.
    destruct Hc as (c & [= <- <-] & Hc).
    apply In_range in Hr, Hc. auto.
  - intros [Hc Hr]. exists row. split; [now apply In_range|].
    apply in_map_iff. exists col. split; [reflexivity|now apply In_range].
Qed.

(** The sheet that [impose_side] builds holds one placement per cell. *)
Lemma impose_side_merged w p sw sh cols rows mx my cw ch rot :
  merged (snd (impose_side w p sw sh cols rows mx my cw ch rot)) =
  map (placement p mx my cw ch rot) (cells cols rows).
Proof.
  unfold impose_side, cells, placement. cbn [snd merged].
  induction (range rows) as [|r rs IH]; [reflexivity|].
  cbn [flat_map]. rewrite map_app, IH. f_equal.
  rewrite map_map. reflexivity.
Qed.

Lemma cell_origin_shift mx my cw ch dx dy col row :
  fst (cell_origin (mx + dx) (my + dy) cw ch col row)
    == fst (cell_origin mx my cw ch col row) + dx /\
  snd (cell_origin (mx + dx) (my + dy) cw ch col row)
    == snd (cell_origin mx my cw ch col row) + dy.
Proof. unfold cell_origin. cbn [fst snd]. split; ring. Qed.

(** The translation part of an emitted transform. *)
Lemma cell_transform_translation rot h x y :
  te (cell_transform rot h (x, y)) == (if rot then x + h else x) /\
  tf (cell_transform rot h (x, y)) == y.
Proof.
  unfold cell_transform, translate, rotate90, Transformation_id.
  destruct rot; cbn [te tf ta tb tc td]; split; ring.
Qed.

Lemma apply_trim_back_size b front back front' back' :
  apply_trim b front back = Ok (front', back') ->
  height (mediabox back') ==
    snd (candidate_card (width (mediabox back)) (height (mediabox back))
           (trim_mm b)).
Proof.
  unfold apply_trim.
  destruct (Qltb 0 (trim_mm b)) eqn:Et.
  - destruct (crop_page_all_sides front (trim_mm b)) as [f1 r1] eqn:E1.
    destruct r1 as [[]|e]; [|discriminate]. simpl.
    destruct (crop_page_all_sides back (trim_mm b)) as [b1 r2] eqn:E2.
    destruct r2 as [[]|e]; [|discriminate]. simpl.
    intros [= <- <-]. now apply crop_page_all_sides_size.
  - intros [= <- <-]. unfold candidate_card. rewrite Et. simpl. reflexivity.
Qed.

Lemma candidate_card_height ow oh ow' oh' t :
  oh == oh' ->
  snd (candidate_card ow oh t) == snd (candidate_card ow' oh' t).
Proof.
  intro E. unfold candidate_card. cbn [snd].
  destruct (Qltb 0 t); rewrite E; reflexivity.
Qed.

(** C4: in a run that returns, the output holds a front sheet and a back
    sheet; at every cell of the grid the front sheet has the front page
    under the transform of the cell origin
    [(margin_x + col * card_w_eff, margin_y + row * card_h_eff)], unmodified,
    and the back sheet has, at the same position, the back page under the
    transform of an origin that is the front one plus the back offset on each
    axis.  When the two input pages have the same height, the translations of
    the two transforms differ by the back offset as well. *)
Theorem back_side_offset args front back rest out
  (Hrun : main args (front :: back :: rest) = Ok out) :
  let bx := BACK_OFFSET_X_MM * MM_TO_PT in
  let by_ := BACK_OFFSET_Y_MM * MM_TO_PT in
  let rot := rotate (best out) in
  let hf := height (mediabox (front_after out)) in
  let hb := height (mediabox (back_after out)) in
  exists front_sheet back_sheet,
    written out = [front_sheet; back_sheet] /\
    forall col row,
      (0 <= col < cols (best out))%Z -> (0 <= row < rows (best out))%Z ->
      let fo := cell_origin (margin_x out) (margin_y out)
                  (final_card_w_eff out) (final_card_h_eff out) col row in
      exists i bo,
        nth_error (merged front_sheet) i
          = Some (front_after out, cell_transform rot hf fo) /\
        nth_error (merged back_sheet) i
          = Some (back_after out, cell_transform rot hb bo) /\
        fst bo == fst fo + bx /\ snd bo == snd fo + by_ /\
        (height (mediabox back) == height (mediabox front) ->
         te (cell_transform rot hb bo) == te (cell_transform rot hf fo) + bx /\
         tf (cell_transform rot hb bo) == tf (cell_transform rot hf fo) + by_).
Proof.
  cbv zeta.
  destruct (main_Ok_inv _ _ _ Hrun) as (f & b & sw & sh & R).
  destruct R as [[rest' Hr] _ _ _ _ Ha _ _ _ _ _ _ Hw].
  injection Hr as <- <- <-.
  eexists. eexists. split; [exact Hw|].
  intros col row Hc Hrw.
  assert (Hin : In (col, row) (cells (cols (best out)) (rows (best out))))
    by now apply In_cells.
  apply In_nth_error in Hin. destruct Hin as [i Hi].
  exists i.
  exists (cell_origin (margin_x out + BACK_OFFSET_X_MM * MM_TO_PT)
            (margin_y out + BACK_OFFSET_Y_MM * MM_TO_PT)
            (final_card_w_eff out) (final_card_h_eff out) col row).
  rewrite !impose_side_merged.
  split; [now rewrite (map_nth_error _ _ _ Hi)|].
  split; [now rewrite (map_nth_error _ _ _ Hi)|].
  destruct (cell_origin_shift (margin_x out) (margin_y out)
              (final_card_w_eff out) (final_card_h_eff out)
              (BACK_OFFSET_X_MM * MM_TO_PT) (BACK_OFFSET_Y_MM * MM_TO_PT)
              col row) as [Ex Ey].
  split; [exact Ex|]. split; [exact Ey|].
  intro Hh.
  assert (Eh : height (mediabox (back_after out))
               == height (mediabox (front_after out))).
  { destruct (apply_trim_size _ _ _ _ _ Ha) as [_ Ef].
    pose proof (apply_trim_back_size _ _ _ _ _ Ha) as Eb.
    rewrite Ef, Eb. now apply candidate_card_height. }
  destruct (cell_origin (margin_x out + BACK_OFFSET_X_MM * MM_TO_PT)
              (margin_y out + BACK_OFFSET_Y_MM * MM_TO_PT)
              (final_card_w_eff out) (final_card_h_eff out) col row)
    as [xb yb].
  destruct (cell_origin (margin_x out) (margin_y out)
              (final_card_w_eff out) (final_card_h_eff out) col row)
    as [xf yf].
  cbn [fst snd] in Ex, Ey.
  destruct (cell_transform_translation (rotate (best out))
              (height (mediabox (back_after out))) xb yb) as [Tb1 Tb2].
  destruct (cell_transform_translation (rotate (best out))
              (height (mediabox (front_after out))) xf yf) as [Tf1 Tf2].
  rewrite Tb1, Tb2, Tf1, Tf2.
  destruct (rotate (best out)); split; lra.
Qed.

Lemma back_side_offset_witness :
  exists out front_sheet back_sheet i Tf Tb,
    main default_args [card_page 90 50; card_page 90 50] = Ok out /\
    written out = [front_sheet; back_sheet] /\
    nth_error (merged front_sheet) i = Some (front_after out, Tf) /\
    nth_error (merged back_sheet) i = Some (back_after out, Tb) /\
    te Tb == te Tf + BACK_OFFSET_X_MM * MM_TO_PT /\
    tf Tb == tf Tf + BACK_OFFSET_Y_MM * MM_TO_PT.
Proof.
  destruct (main default_args [card_page 90 50; card_page 90 50])
    as [out|e] eqn:E; [|vm_compute in E; discriminate E].
  pose proof (back_side_offset _ _ _ _ _ E) as H. cbv zeta in H.
  destruct H as (fs & bs & Hw & Hcells).
  assert (Hg : cols (best out) = 4%Z /\ rows (best out) = 3%Z).
  { vm_compute in E. injection E as <-. split; reflexivity. }
  destruct Hg as [Hc Hr].
  destruct (Hcells 1%Z 2%Z) as (i & bo & Hf & Hb & _ & _ & Ht).
  - rewrite Hc. lia.
  - rewrite Hr. lia.
  - destruct (Ht (Qeq_refl _)) as [Hx Hy].
    exists out, fs, bs, i. eexists. eexists.
    split; [reflexivity|]. split; [exact Hw|].
    split; [exact Hf|]. split; [exact Hb|].
    split; [exact Hx|exact Hy].
Defined.

(** ** A4 sheet, card of 90 by 50 mm, margins of 5 mm *)

(** C9: on an A4 sheet (210 by 297 mm) with margins of 5 mm, for a card of
    90 by 50 mm, the enumeration returns a scenario without trim and without
    rotation that has two columns and five rows; the run returns, and the
    scenario it selects is one of the enumerated ones and its capacity is
    the largest of their capacities (10, 12, 12 and 12). *)
Theorem a4_card_90x50 :
  exists sheet_w sheet_h ss s0 out,
    get_sheet_size "A4" = Ok (sheet_w, sheet_h) /\
    sheet_w == 210 * (72 / (254 # 10)) /\
    sheet_h == 297 * (72 / (254 # 10)) /\
    enumerate_scenarios
      (width (mediabox (card_page 90 50)))
      (height (mediabox (card_page 90 50)))
      (usable_w_of default_args sheet_w)
      (usable_h_of default_args sheet_h) = Ok ss /\
    In s0 ss /\ trim_mm s0 = 0 /\ rotate s0 = false /\
    cols s0 = 2%Z /\ rows s0 = 5%Z /\
    main default_args [card_page 90 50; card_page 90 50] = Ok out /\
    In (best out) ss /\
    map capacity ss = [10; 12; 12; 12]%Z /\
    capacity (best out) = fold_right Z.max 0%Z (map capacity ss) /\
    Forall (fun s => (capacity s <= capacity (best out))%Z) ss.
Proof.
  exists (210 * MM_TO_PT), (297 * MM_TO_PT).
  pose proof (enumerate_scenarios_eq
                (width (mediabox (card_page 90 50)))
                (height (mediabox (card_page 90 50)))
                (usable_w_of default_args (210 * MM_TO_PT))
                (usable_h_of default_args (297 * MM_TO_PT))) as He.
  destruct (enumerated _ _ _ _) as [|s0 [|s1 [|s2 [|s3 [|s4 l]]]]] eqn:Ess;
    try (vm_compute in Ess; discriminate Ess).
  vm_compute in Ess. injection Ess as <- <- <- <-.
  destruct (main default_args [card_page 90 50; card_page 90 50])
    as [out|e] eqn:E; [|vm_compute in E; discriminate E].
  vm_compute in E. injection E as <-.
  eexists. eexists. eexists.
  split; [reflexivity|]. split; [reflexivity|]. split; [reflexivity|].
  split; [exact He|].
  split; [left; reflexivity|].
  repeat (split; [reflexivity|]).
  split; [right; left; reflexivity|].
  split; [reflexivity|]. split; [reflexivity|].
  repeat (apply Forall_cons; [cbn [capacity best]; lia|]).
  apply Forall_nil.
Qed.

(** ** Where a placed card lands *)

Lemma Qmin4_eq a b c d m :
  m <= a -> m <= b -> m <= c -> m <= d ->
  a == m \/ b == m \/ c == m \/ d == m ->
  Qmin4 a b c d == m.
Proof.
  intros Ha Hb Hc Hd Hm. unfold Qmin4.
  destruct (Q.min_spec a b) as [[H1 E1]|[H1 E1]],
           (Q.min_spec c d) as [[H2 E2]|[H2 E2]],
           (Q.min_spec (Qmin a b) (Qmin c d)) as [[H3 E3]|[H3 E3]];
    rewrite E3; rewrite ?E1, ?E2 in *;
    destruct Hm as [Hm|[Hm|[Hm|Hm]]]; lra.
Qed.

(** A pure translation moves the box by the translation: its lower-left
    corner lands at the cell origin plus its own lower-left corner. *)
Lemma plain_placement_lower_left h x y r :
  left r <= right r -> bottom r <= top r ->
  fst (placed_lower_left (cell_transform false h (x, y)) r) == x + left r /\
  snd (placed_lower_left (cell_transform false h (x, y)) r) == y + bottom r.
Proof.
  intros Hx Hy.
  unfold placed_lower_left, cell_transform, translate, Transformation_id,
    apply_on.
  cbn [fst snd ta tb tc td te tf].
  split; apply Qmin4_eq; lra.
Qed.

(** The quarter turn followed by the translation by [(x + h, y)], [h] the
    height of the box: the lower-left corner of the turned box lands at
    [(x - bottom, y + left)]. *)
Lemma rotated_placement_lower_left x y r :
  left r <= right r -> bottom r <= top r ->
  fst (placed_lower_left (cell_transform true (height r) (x, y)) r)
    == x - bottom r /\
  snd (placed_lower_left (cell_transform true (height r) (x, y)) r)
    == y + left r.
Proof.
  intros Hx Hy.
  unfold placed_lower_left, cell_transform, translate, rotate90,
    Transformation_id, apply_on, height.
  cbn [fst snd ta tb tc td te tf].
  split; apply Qmin4_eq; lra.
Qed.

(** For a box whose lower-left corner is the origin, both transforms put
    the card's lower-left corner on the cell origin. *)
Lemma placement_on_origin rot x y r :
  left r == 0 -> bottom r == 0 -> 0 <= right r -> 0 <= top r ->
  fst (placed_lower_left (cell_transform rot (height r) (x, y)) r) == x /\
  snd (placed_lower_left (cell_transform rot (height r) (x, y)) r) == y.
Proof.
  intros Hl Hb Hr Ht.
  destruct rot.
  - destruct (rotated_placement_lower_left x y r) as [E1 E2];
      [lra|lra|]. split; lra.
  - destruct (plain_placement_lower_left (height r) x y r) as [E1 E2];
      [lra|lra|]. split; lra.
Qed.

(** C1, at a card of 90 by 52 mm on A4 with the default margins: the run
    selects the scenario with 2 mm trim and rotation, crops the page to the
    box [[t t w-t h-t]] ([t] the trim in points), and emits for cell (0, 0)
    the quarter turn followed by the translation by
    [(origin.x + card_h_raw, origin.y)]; under that transform the lower-left
    corner of the card's box lands at [(origin.x - t, origin.y + t)], not at
    the cell origin. *)
Theorem rotated_trimmed_card_misses_origin :
  exists out front_sheet back_sheet T,
    main default_args [card_page 90 52; card_page 90 52] = Ok out /\
    rotate (best out) = true /\ trim_mm (best out) = 2 /\
    written out = [front_sheet; back_sheet] /\
    let origin := cell_origin (margin_x out) (margin_y out)
                    (final_card_w_eff out) (final_card_h_eff out) 0 0 in
    let box := mediabox (front_after out) in
    nth_error (merged front_sheet) 0 = Some (front_after out, T) /\
    T = translate (rotate90 Transformation_id)
          (fst origin + height box) (snd origin) /\
    fst (placed_lower_left T box) == fst origin - 2 * MM_TO_PT /\
    snd (placed_lower_left T box) == snd origin + 2 * MM_TO_PT /\
    ~ fst (placed_lower_left T box) == fst origin /\
    ~ snd (placed_lower_left T box) == snd origin.
Proof.
  destruct (main default_args [card_page 90 52; card_page 90 52])
    as [out|e] eqn:E; [|vm_compute in E; discriminate E].
  vm_compute in E. injection E as <-.
  eexists. eexists. eexists. eexists.
  split; [reflexivity|]. split; [reflexivity|]. split; [reflexivity|].
  split; [reflexivity|]. cbv zeta.
  split; [reflexivity|]. split; [vm_compute; reflexivity|].
  split; [vm_compute; reflexivity|]. split; [vm_compute; reflexivity|].
  split; vm_compute; discriminate.
Qed.

(** * Further properties of the program *)

(** ** Sheet formats *)

Lemma upper_ascii_idem c : upper_ascii (upper_ascii c) = upper_ascii c.
Proof. destruct c as [[] [] [] [] [] [] [] []]; reflexivity. Qed.

Lemma upper_idem s : upper (upper s) = upper s.
Proof.
  induction s as [|c s IH]; simpl; [reflexivity|].
  now rewrite upper_ascii_idem, IH.
Qed.

Lemma upper_ascii_low c :
  (nat_of_ascii c < 128)%nat ->
  (nat_of_ascii (upper_ascii c) < 128)%nat.
Proof.
  destruct c as [[] [] [] [] [] [] [] []]; vm_compute; intro H;
    try exact H; try lia.
Qed.

(** For a paper name of ASCII characters: the name is looked up without
    regard to case; the lookup succeeds exactly on the four names of the
    table and otherwise raises the unknown-format error; a size it returns
    is the table's size in millimetres times 72/25.4, positive, and taller
    than wide. *)
Theorem get_sheet_size_table name (Ha : ascii_name name = true) :
  ascii_name (upper name) = true /\
  get_sheet_size (upper name) = get_sheet_size name /\
  (get_sheet_size name = Raise UnknownFormat <->
   ~ In (upper name) ["A4"; "A3"; "SRA4"; "SRA3"]%string) /\
  (forall e, get_sheet_size name = Raise e -> e = UnknownFormat) /\
  (forall w h, get_sheet_size name = Ok (w, h) ->
     exists w_mm h_mm,
       In (upper name, (w_mm, h_mm)) PAPER_SIZES_MM /\
       w = w_mm * MM_TO_PT /\ h = h_mm * MM_TO_PT /\
       0 < w /\ w < h).
Proof.
  split.
  { clear -Ha. induction name as [|c name IH]; [reflexivity|].
    simpl in *. apply andb_true_iff in Ha. destruct Ha as [Hc Hn].
    apply andb_true_iff. split; [|now apply IH].
    apply Nat.ltb_lt. apply upper_ascii_low. now apply Nat.ltb_lt. }
  split; [unfold get_sheet_size; now rewrite upper_idem|].
  split; [|split].
  - unfold get_sheet_size, PAPER_SIZES_MM. cbn [lookup In].
    destruct (String.eqb_spec (upper name) "A4") as [E1|E1];
      [split; [discriminate|intro H; exfalso; apply H; auto]|].
    destruct (String.eqb_spec (upper name) "A3") as [E2|E2];
      [split; [discriminate|intro H; exfalso; apply H; auto]|].
    destruct (String.eqb_spec (upper name) "SRA4") as [E3|E3];
      [split; [discriminate|intro H; exfalso; apply H; auto]|].
    destruct (String.eqb_spec (upper name) "SRA3") as [E4|E4];
      [split; [discriminate|intro H; exfalso; apply H; auto]|].
    split; [|reflexivity].
    intros _ [H|[H|[H|[H|[]]]]]; congruence.
  - apply get_sheet_size_raises.
  - intros w h. unfold get_sheet_size, PAPER_SIZES_MM. cbn [lookup In].
    destruct (String.eqb_spec (upper name) "A4") as [E1|E1].
    { intros [= <- <-]. exists 210, 297. rewrite E1.
      repeat split; auto; vm_compute; reflexivity. }
    destruct (String.eqb_spec (upper name) "A3") as [E2|E2].
    { intros [= <- <-]. exists 297, 420. rewrite E2.
      repeat split; auto; vm_compute; reflexivity. }
    destruct (String.eqb_spec (upper name) "SRA4") as [E3|E3].
    { intros [= <- <-]. exists 225, 320. rewrite E3.
      repeat split; auto 6; vm_compute; reflexivity. }
    destruct (String.eqb_spec (upper name) "SRA3") as [E4|E4].
    { intros [= <- <-]. exists 320, 450. rewrite E4.
      repeat split; auto 6; vm_compute; reflexivity. }
    discriminate.
Qed.

Lemma get_sheet_size_table_witness :
  get_sheet_size "sra3" = Ok (320 * MM_TO_PT, 450 * MM_TO_PT) /\
  get_sheet_size "Letter" = Raise UnknownFormat.
Proof.
  split.
  - destruct (get_sheet_size_table "sra3" eq_refl) as (_ & _ & _ & _ & H).
    destruct (get_sheet_size "sra3") as [[w h]|e] eqn:E;
      [|vm_compute in E; discriminate E].
    destruct (H w h eq_refl) as (wm & hm & Hin & -> & -> & _).
    vm_compute in Hin.
    destruct Hin as [Hin|[Hin|[Hin|[Hin|[]]]]];
      try discriminate Hin.
    injection Hin as <- <-. reflexivity.
  - destruct (get_sheet_size_table "Letter" eq_refl) as (_ & _ & H & _).
    apply H. vm_compute. intros [H'|[H'|[H'|[H'|[]]]]]; discriminate H'.
Defined.

(** ** Grid fit *)

Lemma floor_lt_one_iff u c :
  0 < c -> ((Qfloor (u / c) < 1)%Z <-> u < c).
Proof.
  intro Hc.
  assert (E : (u / c) * c == u) by (field; lra).
  split.
  - intro H.
    pose proof (Qlt_floor (u / c)) as Hlt.
    assert (Hz : inject_Z (Qfloor (u / c) + 1) <= 1).
    { change 1 with (inject_Z 1). rewrite <- Zle_Qle. lia. }
    assert (Hq : u / c < 1) by lra.
    assert (Hm : (u / c) * c < 1 * c)
      by (apply Qmult_lt_compat_r; assumption).
    lra.
  - intro H.
    assert (Hq : u / c < 1).
    { apply Qlt_shift_div_r; [assumption|lra]. }
    pose proof (Qfloor_le (u / c)) as Hle.
    assert (Hz : inject_Z (Qfloor (u / c)) < inject_Z 1)
      by (change (inject_Z 1) with 1; lra).
    now rewrite <- Zlt_Qlt in Hz.
Qed.

Lemma floor_plus_one_gt u c :
  0 < c -> u < inject_Z (Qfloor (u / c) + 1) * c.
Proof.
  intro Hc.
  assert (E : (u / c) * c == u) by (field; lra).
  pose proof (Qlt_floor (u / c)) as Hlt.
  assert (Hm : (u / c) * c < inject_Z (Qfloor (u / c) + 1) * c)
    by (apply Qmult_lt_compat_r; assumption).
  lra.
Qed.

(** For a card of positive width and height and quotients of the usable
    area by the card below [2^1023] in size, so that the float quotient is
    finite: [compute_grid] raises exactly when the usable area is narrower
    or lower than the card, and then it raises the card-too-large error. *)
Theorem compute_grid_raises_iff cw ch uw uh (Hw : 0 < cw) (Hh : 0 < ch)
  (Bw : - quotient_bound < uw / cw /\ uw / cw < quotient_bound)
  (Bh : - quotient_bound < uh / ch /\ uh / ch < quotient_bound) :
  (compute_grid cw ch uw uh = Raise CardTooLarge <-> uw < cw \/ uh < ch) /\
  (forall e, compute_grid cw ch uw uh = Raise e -> e = CardTooLarge).
Proof.
  clear Bw Bh.
  rewrite compute_grid_pos by assumption. cbv zeta.
  destruct (Z.ltb_spec (Qfloor (uw / cw)) 1) as [Hc|Hc];
  destruct (Z.ltb_spec (Qfloor (uh / ch)) 1) as [Hr|Hr]; cbn [orb].
  - split; [|now intros e [= <-]].
    split; [|reflexivity]. intros _. left. now apply floor_lt_one_iff in Hc.
  - split; [|now intros e [= <-]].
    split; [|reflexivity]. intros _. left. now apply floor_lt_one_iff in Hc.
  - split; [|now intros e [= <-]].
    split; [|reflexivity]. intros _. right. now apply floor_lt_one_iff in Hr.
  - split; [|discriminate]. split; [discriminate|].
    intros [H|H]; apply floor_lt_one_iff in H; try assumption; lia.
Qed.

Lemma compute_grid_raises_iff_witness :
  compute_grid 90 50 80 287 = Raise CardTooLarge.
Proof.
  apply (compute_grid_raises_iff 90 50 80 287).
  - reflexivity.
  - reflexivity.
  - split; vm_compute; reflexivity.
  - split; vm_compute; reflexivity.
  - left. reflexivity.
Defined.

(** For a card of positive width and height, a grid that [compute_grid]
    returns has at least one column and one row, holds as many columns and
    rows as fit the usable area and not one more, and comes with margins
    that are not negative, are less than half a card, and center the grid in
    the usable area. *)
Theorem compute_grid_fits cw ch uw uh c r mx my
  (Hw : 0 < cw) (Hh : 0 < ch)
  (Hg : compute_grid cw ch uw uh = Ok (c, r, mx, my)) :
  (1 <= c)%Z /\ (1 <= r)%Z /\
  inject_Z c * cw <= uw /\ uw < inject_Z (c + 1) * cw /\
  inject_Z r * ch <= uh /\ uh < inject_Z (r + 1) * ch /\
  0 <= mx /\ 2 * mx < cw /\ mx + inject_Z c * cw + mx == uw /\
  0 <= my /\ 2 * my < ch /\ my + inject_Z r * ch + my == uh.
Proof.
  rewrite compute_grid_pos in Hg by assumption. cbv zeta in Hg.
  destruct (Z.ltb_spec (Qfloor (uw / cw)) 1) as [Hc|Hc];
    [discriminate|].
  destruct (Z.ltb_spec (Qfloor (uh / ch)) 1) as [Hr|Hr];
    [discriminate|].
  cbn [orb] in Hg. injection Hg as <- <- <- <-.
  pose proof (floor_times_le uw cw Hw) as L1.
  pose proof (floor_times_le uh ch Hh) as L2.
  pose proof (floor_plus_one_gt uw cw Hw) as G1.
  pose proof (floor_plus_one_gt uh ch Hh) as G2.
  rewrite inject_Z_plus in G1, G2.
  assert (X1 : (inject_Z (Qfloor (uw / cw)) + inject_Z 1) * cw
               == inject_Z (Qfloor (uw / cw)) * cw + cw) by ring.
  assert (X2 : (inject_Z (Qfloor (uh / ch)) + inject_Z 1) * ch
               == inject_Z (Qfloor (uh / ch)) * ch + ch) by ring.
  rewrite X1 in G1. rewrite X2 in G2.
  set (gw := inject_Z (Qfloor (uw / cw)) * cw) in *.
  set (gh := inject_Z (Qfloor (uh / ch)) * ch) in *.
  assert (E1 : (uw - gw) / 2 * 2 == uw - gw) by field.
  assert (E2 : (uh - gh) / 2 * 2 == uh - gh) by field.
  repeat split; try assumption; rewrite ?inject_Z_plus, ?X1, ?X2; lra.
Qed.

Lemma compute_grid_fits_witness :
  exists mx my, compute_grid 90 50 200 287 = Ok (2%Z, 5%Z, mx, my) /\
                0 <= mx /\ 0 <= my.
Proof.
  eexists. eexists. split; [vm_compute; reflexivity|].
  destruct (compute_grid_fits 90 50 200 287 2 5 _ _
              eq_refl eq_refl eq_refl)
    as (_ & _ & _ & _ & _ & _ & Hx & _ & _ & Hy & _).
  split; [exact Hx|exact Hy].
Defined.

(** ** Cropping, further *)

Lemma crop_page_all_sides_Ok_inv page t page' :
  0 < t ->
  crop_page_all_sides page t = (page', Ok tt) ->
  mediabox page' =
    mkRect (left (mediabox page) + t * MM_TO_PT)
           (bottom (mediabox page) + t * MM_TO_PT)
           (right (mediabox page) - t * MM_TO_PT)
           (top (mediabox page) - t * MM_TO_PT) /\
  left (mediabox page) + t * MM_TO_PT < right (mediabox page) - t * MM_TO_PT /\
  bottom (mediabox page) + t * MM_TO_PT < top (mediabox page) - t * MM_TO_PT.
Proof.
  intros Ht. unfold crop_page_all_sides. cbv zeta.
  destruct (Qleb t 0) eqn:Et; [apply Qleb_le in Et; lra|].
  cbn [lower_left upper_right].
  destruct (Qleb (right (mediabox page) - t * MM_TO_PT)
              (left (mediabox page) + t * MM_TO_PT)) eqn:Ex;
    [discriminate|].
  destruct (Qleb (top (mediabox page) - t * MM_TO_PT)
              (bottom (mediabox page) + t * MM_TO_PT)) eqn:Ey;
    [discriminate|].
  cbn [orb]. intros [= <-]. apply Qleb_gt in Ex, Ey.
  split; [reflexivity|]. split; assumption.
Qed.

Lemma crop_page_all_sides_Ok_intro page t :
  0 < t ->
  left (mediabox page) + t * MM_TO_PT < right (mediabox page) - t * MM_TO_PT ->
  bottom (mediabox page) + t * MM_TO_PT < top (mediabox page) - t * MM_TO_PT ->
  crop_page_all_sides page t =
  ({| mediabox :=
        mkRect (left (mediabox page) + t * MM_TO_PT)
               (bottom (mediabox page) + t * MM_TO_PT)
               (right (mediabox page) - t * MM_TO_PT)
               (top (mediabox page) - t * MM_TO_PT) |}, Ok tt).
Proof.
  intros Ht Hx Hy. unfold crop_page_all_sides. cbv zeta.
  assert (Et : Qleb t 0 = false) by now apply Qleb_gt.
  rewrite Et. cbn [lower_left upper_right].
  apply Qleb_gt in Hx, Hy. rewrite Hx, Hy. reflexivity.
Qed.

(** Cropping is monotone in the trim: when the crop by a trim returns, the
    crop by any smaller positive trim returns too, and the box it leaves
    contains the box left by the larger trim and lies inside the original
    box. *)
Theorem crop_page_all_sides_monotone page t1 t2 p2
  (H1 : 0 < t1) (H12 : t1 <= t2)
  (E2 : crop_page_all_sides page t2 = (p2, Ok tt)) :
  exists p1,
    crop_page_all_sides page t1 = (p1, Ok tt) /\
    left (mediabox page) <= left (mediabox p1) /\
    left (mediabox p1) <= left (mediabox p2) /\
    right (mediabox p2) <= right (mediabox p1) /\
    right (mediabox p1) <= right (mediabox page) /\
    bottom (mediabox page) <= bottom (mediabox p1) /\
    bottom (mediabox p1) <= bottom (mediabox p2) /\
    top (mediabox p2) <= top (mediabox p1) /\
    top (mediabox p1) <= top (mediabox page).
Proof.
  assert (H2 : 0 < t2) by lra.
  apply crop_page_all_sides_Ok_inv in E2; [|assumption].
  destruct E2 as (B2 & X2 & Y2).
  assert (P : 0 < MM_TO_PT) by reflexivity.
  pose proof (Qmult_le_compat_r _ _ MM_TO_PT H12 (Qlt_le_weak _ _ P)) as M.
  pose proof (Qmult_lt_compat_r _ _ MM_TO_PT P H1) as M0.
  eexists. split.
  - apply crop_page_all_sides_Ok_intro; lra.
  - rewrite B2. cbn [mediabox left right top bottom]. repeat split; lra.
Qed.

Lemma crop_page_all_sides_monotone_witness :
  exists p1 p2,
    crop_page_all_sides (card_page 90 50) 5 = (p2, Ok tt) /\
    crop_page_all_sides (card_page 90 50) 2 = (p1, Ok tt) /\
    left (mediabox p1) <= left (mediabox p2).
Proof.
  destruct (crop_page_all_sides (card_page 90 50) 5) as [p2 r2] eqn:E2.
  destruct r2 as [[]|e]; [|vm_compute in E2; discriminate E2].
  destruct (crop_page_all_sides_monotone (card_page 90 50) 2 5 p2)
    as (p1 & E1 & _ & Hl & _).
  - reflexivity.
  - vm_compute. discriminate.
  - exact E2.
  - exists p1, p2. repeat split; assumption.
Defined.

(** ** One side of the sheet *)

Lemma length_range n : List.length (range n) = Z.to_nat n.
Proof. unfold range. now rewrite List.length_map, List.length_seq. Qed.

Lemma nth_error_range n i :
  (i < Z.to_nat n)%nat -> nth_error (range n) i = Some (Z.of_nat i).
Proof.
  intro Hi. unfold range.
  rewrite nth_error_map.
  rewrite (nth_error_nth' _ 0%nat) by now rewrite List.length_seq.
  rewrite seq_nth by assumption. reflexivity.
Qed.

Lemma length_cells cols rows :
  List.length (cells cols rows) = (Z.to_nat rows * Z.to_nat cols)%nat.
Proof.
  unfold cells. rewrite <- (length_range rows).
  induction (range rows) as [|r rs IH]; [reflexivity|].
  cbn [flat_map]. rewrite List.length_app, IH, List.length_map, length_range.
  simpl. lia.
Qed.

Lemma nth_error_flat_map_uniform {A B : Type} (f : A -> list B) (k : nat)
  (l : list A) (i j : nat) (a : A) :
  (forall x, List.length (f x) = k) -> (j < k)%nat ->
  nth_error l i = Some a ->
  nth_error (flat_map f l) (i * k + j) = nth_error (f a) j.
Proof.
  intros Hk Hj. revert i.
  induction l as [|x l IH]; intros i Hi.
  - destruct i; discriminate.
  - destruct i as [|i]; cbn [flat_map].
    + injection Hi as ->. simpl.
      apply nth_error_app1. now rewrite Hk.
    + simpl in Hi.
      replace (S i * k + j)%nat with (List.length (f x) + (i * k + j))%nat
        by (rewrite Hk; simpl; lia).
      rewrite nth_error_app2 by lia.
      replace (List.length (f x) + (i * k + j) - List.length (f x))%nat
        with (i * k + j)%nat by lia.
      now apply IH.
Qed.

Lemma nth_error_cells cols rows col row :
  (0 <= col < cols)%Z -> (0 <= row < rows)%Z ->
  nth_error (cells cols rows) (Z.to_nat (row * cols + col)) = Some (col, row).
Proof.
  intros Hc Hr. unfold cells.
  replace (Z.to_nat (row * cols + col))
    with (Z.to_nat row * Z.to_nat cols + Z.to_nat col)%nat by nia.
  rewrite (nth_error_flat_map_uniform _ (Z.to_nat cols) _ _ _ row).
  - rewrite nth_error_map, nth_error_range by lia.
    simpl. now rewrite Z2Nat.id by lia.
  - intro x. now rewrite List.length_map, length_range.
  - lia.
  - rewrite nth_error_range by lia. now rewrite Z2Nat.id by lia.
Qed.

(** [impose_side] appends one sheet of the given size to the writer and
    leaves the sheets before it; the sheet holds [cols * rows] placements,
    none when either is zero or less, and each is a placement of the base
    page. *)
Theorem impose_side_sheet w p sw sh cols rows mx my cw ch rot :
  let w' := fst (impose_side w p sw sh cols rows mx my cw ch rot) in
  let page := snd (impose_side w p sw sh cols rows mx my cw ch rot) in
  w' = w ++ [page] /\
  sheet_width page = sw /\ sheet_height page = sh /\
  List.length (merged page) = (Z.to_nat cols * Z.to_nat rows)%nat /\
  Forall (fun pl => fst pl = p) (merged page).
Proof.
  cbv zeta. split; [reflexivity|]. split; [reflexivity|].
  split; [reflexivity|]. rewrite impose_side_merged. split.
  - rewrite List.length_map, length_cells. lia.
  - apply Forall_forall. intros pl Hin. apply in_map_iff in Hin.
    destruct Hin as (c & <- & _). reflexivity.
Qed.

(** The placements of a sheet are in row-major order: the placement of the
    cell [(col, row)] is at position [row * cols + col]. *)
Theorem impose_side_row_major w p sw sh cols rows mx my cw ch rot col row
  (Hc : (0 <= col < cols)%Z) (Hr : (0 <= row < rows)%Z) :
  nth_error (merged (snd (impose_side w p sw sh cols rows mx my cw ch rot)))
    (Z.to_nat (row * cols + col))
  = Some (p, cell_transform rot (height (mediabox p))
               (cell_origin mx my cw ch col row)).
Proof.
  rewrite impose_side_merged.
  rewrite nth_error_map, (nth_error_cells cols rows col row Hc Hr).
  reflexivity.
Qed.

Lemma impose_side_row_major_witness :
  nth_error
    (merged (snd (impose_side [] (card_page 90 50) 600 800 4 3 10 20 50 90
                    false)))
    6
  = Some (card_page 90 50,
          cell_transform false (height (mediabox (card_page 90 50)))
            (cell_origin 10 20 50 90 2 1)).
Proof.
  apply (impose_side_row_major [] (card_page 90 50) 600 800 4 3 10 20 50 90
           false 2 1); lia.
Defined.

Lemma Qmax4_eq a b c d m :
  a <= m -> b <= m -> c <= m -> d <= m ->
  a == m \/ b == m \/ c == m \/ d == m ->
  Qmax4 a b c d == m.
Proof.
  intros Ha Hb Hc Hd Hm. unfold Qmax4.
  destruct (Q.max_spec a b) as [[H1 E1]|[H1 E1]],
           (Q.max_spec c d) as [[H2 E2]|[H2 E2]],
           (Q.max_spec (Qmax a b) (Qmax c d)) as [[H3 E3]|[H3 E3]];
    rewrite E3; rewrite ?E1, ?E2 in *;
    destruct Hm as [Hm|[Hm|[Hm|Hm]]]; lra.
Qed.

Lemma placement_far_corner rot x y r :
  left r == 0 -> bottom r == 0 -> 0 <= right r -> 0 <= top r ->
  fst (placed_upper_right (cell_transform rot (height r) (x, y)) r)
    == x + (if rot then height r else width r) /\
  snd (placed_upper_right (cell_transform rot (height r) (x, y)) r)
    == y + (if rot then width r else height r).
Proof.
  intros Hl Hb Hr Ht.
  unfold placed_upper_right, cell_transform, translate, rotate90,
    Transformation_id, apply_on, height, width.
  destruct rot; cbn [fst snd ta tb tc td te tf];
    split; apply Qmax4_eq; lra.
Qed.

(** For a page whose box has its lower-left corner at the origin, placed on
    a grid whose cells have the size of the page (turned when rotated),
    every card covers its cell exactly: its box reaches from the origin of
    its cell to the origin of the cell one column and one row further. *)
Theorem impose_side_cards_fill_cells w p sw sh cols rows mx my (rot : bool) col row
  (Hl : left (mediabox p) == 0) (Hb : bottom (mediabox p) == 0)
  (Hr : 0 <= right (mediabox p)) (Ht : 0 <= top (mediabox p))
  (Hc : (0 <= col < cols)%Z) (Hrw : (0 <= row < rows)%Z) :
  let box := mediabox p in
  let cw := if rot then height box else width box in
  let ch := if rot then width box else height box in
  exists T,
    nth_error
      (merged (snd (impose_side w p sw sh cols rows mx my cw ch rot)))
      (Z.to_nat (row * cols + col)) = Some (p, T) /\
    fst (placed_lower_left T box) == fst (cell_origin mx my cw ch col row) /\
    snd (placed_lower_left T box) == snd (cell_origin mx my cw ch col row) /\
    fst (placed_upper_right T box)
      == fst (cell_origin mx my cw ch (col + 1) (row + 1)) /\
    snd (placed_upper_right T box)
      == snd (cell_origin mx my cw ch (col + 1) (row + 1)).
Proof.
  cbv zeta. eexists. split.
  - rewrite impose_side_merged.
    rewrite nth_error_map, (nth_error_cells cols rows col row Hc Hrw).
    reflexivity.
  - cbn [fst snd]. unfold cell_origin at 1 3 5 7.
    destruct (placement_on_origin rot
                (mx + inject_Z col *
                        (if rot then height (mediabox p)
                         else width (mediabox p)))
                (my + inject_Z row *
                        (if rot then width (mediabox p)
                         else height (mediabox p)))
                (mediabox p) Hl Hb Hr Ht) as [L1 L2].
    destruct (placement_far_corner rot
                (mx + inject_Z col *
                        (if rot then height (mediabox p)
                         else width (mediabox p)))
                (my + inject_Z row *
                        (if rot then width (mediabox p)
                         else height (mediabox p)))
                (mediabox p) Hl Hb Hr Ht) as [U1 U2].
    rewrite L1, L2, U1, U2. unfold cell_origin. cbn [fst snd].
    rewrite !inject_Z_plus.
    repeat split; try reflexivity; ring.
Qed.

Lemma impose_side_cards_fill_cells_witness :
  exists T,
    nth_error
      (merged (snd (impose_side [] (card_page 90 50) 600 800 4 3 10 20
                      (height (mediabox (card_page 90 50)))
                      (width (mediabox (card_page 90 50))) true)))
      6 = Some (card_page 90 50, T) /\
    fst (placed_upper_right T (mediabox (card_page 90 50)))
    == 10 + 3 * height (mediabox (card_page 90 50)).
Proof.
  destruct (impose_side_cards_fill_cells [] (card_page 90 50) 600 800 4 3
              10 20 true 2 1) as (T & Hn & _ & _ & Hx & _);
    try reflexivity; try (vm_compute; discriminate); try lia.
  exists T. split; [exact Hn|].
  rewrite Hx. unfold cell_origin. cbn [fst]. reflexivity.
Defined.

(** ** The enumerator in terms of sizes *)



(** ** Runs of the program, further *)

(** On the rational reading the cropped page has exactly the size the
    enumerator tried, and the invariant error is out of reach.  In binary64
    it is not: the two sizes are computed by different roundings. *)
Lemma exact_main_never_invariant_violation args reader :
  main args reader <> Raise InvariantViolation.
Proof.
  intro E. pose proof (main_runs args reader) as H. rewrite E in H.
  inversion H as [| | | | |f b rest sw sh bst f' b' _ _ _ _ Hb Ha Hlow|].
  destruct (selected_grid_fits _ _ _ _ _ _ _ Hb Ha) as [Fw Fh].
  unfold usable_w_of, usable_h_of in Fw, Fh.
  destruct Hlow as [Hlow|Hlow].
  - set (g := inject_Z (cols bst) * _) in *.
    assert (Hm : fst (min_margins_mm args) * MM_TO_PT <= (sw - g) / 2)
      by (apply Qle_shift_div_l; lra).
    lra.
  - set (g := inject_Z (rows bst) * _) in *.
    assert (Hm : snd (min_margins_mm args) * MM_TO_PT <= (sh - g) / 2)
      by (apply Qle_shift_div_l; lra).
    lra.
Qed.

(** The two earliest exits: the run raises the too-few-pages error exactly
    when the input has fewer than two pages, whatever the arguments, and the
    unknown-format error exactly when it has two pages or more and the paper
    name is not in the table. *)
Theorem main_early_exits args reader :
  (main args reader = Raise TooFewPages <-> (List.length reader < 2)%nat) /\
  (main args reader = Raise UnknownFormat <->
   (2 <= List.length reader)%nat /\
   get_sheet_size (arg_paper args) = Raise UnknownFormat).
Proof.
  pose proof (main_runs args reader) as R. split; split.
  - intro E. rewrite E in R. now inversion R.
  - intro Hl.
    destruct R as [Hl'|f' b' rest' Hr' Hs'|f' b' rest' sw' sh' Hr' Hs' Hu'
                  |f' b' rest' sw' sh' Hr' Hs' Hw' Hh' He'
                  |f' b' rest' sw' sh' bst Hr' Hs' Hw' Hh' Hb' Ha'
                  |f' b' rest' sw' sh' bst f2 b2 Hr' Hs' Hw' Hh' Hb' Ha' Hlow
                  |out f' b' sw' sh' [[rest' Hr'] _ _ _ _ _ _ _ _ _ _ _ _]];
      try reflexivity; exfalso; rewrite Hr' in Hl; simpl in Hl; lia.
  - intro E. rewrite E in R.
    inversion R as [|f b rest Hr Hs| | | | |]. subst reader.
    split; [simpl; lia|assumption].
  - intros [Hl Hs].
    destruct R as [Hl'|f' b' rest' Hr' Hs'|f' b' rest' sw' sh' Hr' Hs' Hu'
                  |f' b' rest' sw' sh' Hr' Hs' Hw' Hh' He'
                  |f' b' rest' sw' sh' bst Hr' Hs' Hw' Hh' Hb' Ha'
                  |f' b' rest' sw' sh' bst f2 b2 Hr' Hs' Hw' Hh' Hb' Ha' Hlow
                  |out f' b' sw' sh' [[rest' Hr'] Hs' _ _ _ _ _ _ _ _ _ _ _]];
      try reflexivity; exfalso; try lia; congruence.
Qed.

Lemma main_early_exits_witness :
  main default_args [] = Raise TooFewPages /\
  main (args_with_margins "Letter" 5 5) [card_page 90 50; card_page 90 50]
  = Raise UnknownFormat.
Proof.
  split.
  - apply (main_early_exits default_args []). simpl. lia.
  - apply (main_early_exits (args_with_margins "Letter" 5 5)
             [card_page 90 50; card_page 90 50]).
    split; [simpl; lia|reflexivity].
Defined.


Lemma run_best_viable args reader out front back sw sh :
  run_ok args reader out front back sw sh ->
  viable (width (mediabox front)) (height (mediabox front))
    (usable_w_of args sw) (usable_h_of args sh) (best out).
Proof.
  intros [_ _ _ _ Hb _ _ _ _ _ _ _ _].
  apply select_best_Ok in Hb. destruct Hb as [Hin _].
  now apply enumerated_viable.
Qed.


(** A run that returns has written two sheets, the front one and the back
    one, each of the size of the paper and each holding as many placements
    as the capacity of the selected scenario, which is at least one; the
    front sheet holds the front page only and the back sheet the back page
    only, both as cropped. *)
Theorem main_output_sheets args reader out
  (H : main args reader = Ok out) :
  exists sheet_w sheet_h front_sheet back_sheet,
    get_sheet_size (arg_paper args) = Ok (sheet_w, sheet_h) /\
    written out = [front_sheet; back_sheet] /\
    sheet_width front_sheet = sheet_w /\ sheet_height front_sheet = sheet_h /\
    sheet_width back_sheet = sheet_w /\ sheet_height back_sheet = sheet_h /\
    (1 <= capacity (best out))%Z /\
    List.length (merged front_sheet) = Z.to_nat (capacity (best out)) /\
    List.length (merged back_sheet) = Z.to_nat (capacity (best out)) /\
    Forall (fun pl => fst pl = front_after out) (merged front_sheet) /\
    Forall (fun pl => fst pl = back_after out) (merged back_sheet).
Proof.
  destruct (main_Ok_inv _ _ _ H) as (f & b & sw & sh & R).
  pose proof (run_best_viable _ _ _ _ _ _ _ R) as V.
  destruct V as [_ _ _ _ _ _ _ Hc Hr Hcap].
  destruct R as [_ Hs _ _ _ _ _ _ _ _ _ _ Hw].
  exists sw, sh. eexists. eexists.
  split; [exact Hs|]. split; [exact Hw|].
  repeat (split; [reflexivity|]).
  split; [rewrite Hcap; nia|].
  rewrite !impose_side_merged, !List.length_map, !length_cells, Hcap.
  split; [nia|]. split; [nia|].
  split; apply Forall_forall; intros pl Hin; apply in_map_iff in Hin;
    destruct Hin as (c & <- & _); reflexivity.
Qed.

Lemma main_output_sheets_witness :
  exists out front_sheet back_sheet,
    main default_args [card_page 90 50; card_page 90 50] = Ok out /\
    written out = [front_sheet; back_sheet] /\
    List.length (merged front_sheet) = 12%nat /\
    List.length (merged back_sheet) = 12%nat.
Proof.
  destruct (main default_args [card_page 90 50; card_page 90 50])
    as [out|e] eqn:E; [|vm_compute in E; discriminate E].
  destruct (main_output_sheets _ _ _ E)
    as (sw & sh & fs & bs & _ & Hw & _ & _ & _ & _ & _ & Lf & Lb & _).
  assert (Hc : capacity (best out) = 12%Z).
  { vm_compute in E. injection E as <-. reflexivity. }
  rewrite Hc in Lf, Lb.
  exists out, fs, bs. repeat split; assumption.
Defined.





Lemma scaled_le_iff w m :
  w * MM_TO_PT - 2 * (m * MM_TO_PT) <= 0 <-> w <= 2 * m.
Proof.
  assert (P : 0 < MM_TO_PT) by reflexivity.
  split; intro H.
  - destruct (Qlt_le_dec (2 * m) w) as [Hlt|Hle]; [|assumption].
    pose proof (Qmult_lt_compat_r _ _ MM_TO_PT P Hlt). lra.
  - pose proof (Qmult_le_compat_r _ _ MM_TO_PT H (Qlt_le_weak _ _ P)). lra.
Qed.

(** The margin test in millimetres: with a paper of the table and two input
    pages, the run raises the margin-too-large error exactly when twice the
    minimum margin reaches the paper's width or height. *)
Theorem main_margin_too_large_mm args front back rest w_mm h_mm
  (Hl : lookup (upper (arg_paper args)) PAPER_SIZES_MM = Some (w_mm, h_mm)) :
  main args (front :: back :: rest) = Raise MarginTooLarge <->
  w_mm <= 2 * fst (min_margins_mm args) \/
  h_mm <= 2 * snd (min_margins_mm args).
Proof.
  assert (Hs : get_sheet_size (arg_paper args)
               = Ok (w_mm * MM_TO_PT, h_mm * MM_TO_PT)).
  { unfold get_sheet_size. now rewrite Hl. }
  assert (Ux : usable_w_of args (w_mm * MM_TO_PT) <= 0
               <-> w_mm <= 2 * fst (min_margins_mm args)).
  { unfold usable_w_of. apply scaled_le_iff. }
  assert (Uy : usable_h_of args (h_mm * MM_TO_PT) <= 0
               <-> h_mm <= 2 * snd (min_margins_mm args)).
  { unfold usable_h_of. apply scaled_le_iff. }
  rewrite main_margin_too_large. split.
  - intros (f & b & r & sw & sh & _ & Hs' & Hu).
    rewrite Hs in Hs'. injection Hs' as <- <-.
    destruct Hu; [left; now apply Ux|right; now apply Uy].
  - intros Hu. exists front, back, rest.
    exists (w_mm * MM_TO_PT), (h_mm * MM_TO_PT).
    split; [reflexivity|]. split; [exact Hs|].
    destruct Hu; [left; now apply Ux|right; now apply Uy].
Qed.

Lemma main_margin_too_large_mm_witness :
  main (args_with_margins "A4" 105 5) [card_page 90 50; card_page 90 50]
  = Raise MarginTooLarge.
Proof.
  apply (main_margin_too_large_mm (args_with_margins "A4" 105 5)
           (card_page 90 50) (card_page 90 50) [] 210 297 eq_refl).
  left. vm_compute. discriminate.
Defined.

(** ** The output name *)

Lemma take_drop n s : (take n s ++ drop n s)%string = s.
Proof.
  revert s. induction n as [|n IH]; intros [|c s]; simpl;
    try reflexivity. now rewrite IH.
Qed.

Lemma string_length_append (a b : string) :
  String.length (a ++ b) = (String.length a + String.length b)%nat.
Proof. induction a as [|c a IH]; simpl; [reflexivity|now rewrite IH]. Qed.

Lemma skip_leading_dots_split p d fuel i root ext :
  skip_leading_dots p d fuel i = Some (root, ext) ->
  (root ++ ext)%string = p.
Proof.
  revert i. induction fuel as [|fuel IH]; intro i; simpl; [discriminate|].
  destruct (String.get (Z.to_nat i) p) as [c|].
  - destruct (Ascii.eqb_spec c "."%char) as [->|Hc].
    + apply IH.
    + destruct c as [[] [] [] [] [] [] [] []];
        try (intros [= <- <-]; apply take_drop).
      contradiction Hc. reflexivity.
  - intros [= <- <-]. apply take_drop.
Qed.

Lemma splitext_append p :
  (fst (splitext p) ++ snd (splitext p))%string = p.
Proof.
  unfold splitext. cbv zeta.
  destruct (rfind "/" p <? rfind "." p)%Z.
  - destruct (skip_leading_dots _ _ _ _) as [[root ext]|] eqn:E; simpl.
    + eapply skip_leading_dots_split, E.
    + clear E. induction p as [|c p IH]; simpl; [reflexivity|now rewrite IH].
  - simpl. induction p as [|c p IH]; simpl; [reflexivity|now rewrite IH].
Qed.

(** When no output name is given, the output name is the root of the input
    name, then [_PRINT], then the extension of the input name, or [.pdf]
    when it has none, where root and extension make up the input name; it
    is at least six characters longer than the input name, and so is never
    the input name itself.  A given output name is used as it is. *)
Theorem output_name_default input :
  let root := fst (splitext input) in
  let ext := snd (splitext input) in
  (root ++ ext)%string = input /\
  (ext <> EmptyString ->
   output_name input None = (root ++ "_PRINT" ++ ext)%string) /\
  (ext = EmptyString ->
   output_name input None = (input ++ "_PRINT.pdf")%string) /\
  (String.length input + 6 <= String.length (output_name input None))%nat /\
  output_name input None <> input /\
  forall name, output_name input (Some name) = name.
Proof.
  cbv zeta. pose proof (splitext_append input) as Hs.
  unfold output_name.
  destruct (splitext input) as [root ext]. cbn [fst snd] in *.
  split; [exact Hs|].
  assert (Hlen : (String.length input + 6 <=
                  String.length
                    (root ++ "_PRINT" ++
                     (if String.eqb ext EmptyString then ".pdf" else ext)))%nat).
  { rewrite <- Hs, !string_length_append.
    destruct (String.eqb_spec ext EmptyString) as [->|]; simpl; lia. }
  split; [|split; [|split; [|split]]].
  - intro Hne. destruct (String.eqb_spec ext EmptyString); [contradiction|].
    reflexivity.
  - intros ->. simpl in *.
    assert (Hr : root = input).
    { rewrite <- Hs. clear.
      induction root as [|c r IH]; simpl; [reflexivity|now rewrite <- IH]. }
    now rewrite Hr.
  - exact Hlen.
  - intro E. rewrite E in Hlen. lia.
  - reflexivity.
Qed.

Lemma output_name_default_witness :
  output_name "cards.pdf" None = "cards_PRINT.pdf"%string /\
  output_name "v1.2/cards" None = "v1.2/cards_PRINT.pdf"%string /\
  output_name ".cards" None = ".cards_PRINT.pdf"%string.
Proof.
  split; [|split].
  - destruct (output_name_default "cards.pdf") as (_ & H & _).
    apply H. vm_compute. discriminate.
  - destruct (output_name_default "v1.2/cards") as (_ & _ & H & _).
    apply H. reflexivity.
  - destruct (output_name_default ".cards") as (_ & _ & H & _).
    apply H. reflexivity.
Defined.

(** ** Scenarios and sizes *)





Lemma floor_div_antimono u c1 c2 :
  0 <= u -> 0 < c2 -> c2 <= c1 ->
  (Qfloor (u / c1) <= Qfloor (u / c2))%Z.
Proof.
  intros Hu H2 H12. apply Qfloor_resp_le.
  assert (H1 : 0 < c1) by lra.
  assert (P : 0 <= u / c1) by (apply Qle_shift_div_l; lra).
  apply Qle_shift_div_l; [assumption|].
  assert (E : (u / c1) * c1 == u) by (field; lra).
  assert (M : (u / c1) * c2 <= (u / c1) * c1).
  { rewrite (Qmult_comm (u / c1) c2), (Qmult_comm (u / c1) c1).
    apply Qmult_le_compat_r; assumption. }
  lra.
Qed.

(** Trimming never costs capacity: when an untrimmed scenario is enumerated
    and the card trimmed by 2 mm still has positive width and height, the
    trimmed scenario of the same rotation is enumerated too, with at least
    as many columns and rows and at least the capacity. *)
Theorem trim_keeps_capacity ow oh uw uh ss s0
  (He : enumerate_scenarios ow oh uw uh = Ok ss)
  (Hin : In s0 ss)
  (Ht : trim_mm s0 = 0)
  (Pw : 0 < fst (candidate_card ow oh 2))
  (Ph : 0 < snd (candidate_card ow oh 2)) :
  exists s2,
    In s2 ss /\
    trim_mm s2 = 2 /\ rotate s2 = rotate s0 /\
    (cols s0 <= cols s2)%Z /\ (rows s0 <= rows s2)%Z /\
    (capacity s0 <= capacity s2)%Z.
Proof.
  rewrite enumerate_scenarios_eq in He. injection He as <-.
  apply enumerated_viable in Hin.
  destruct Hin as [_ Vw Vh Ewe Ehe Ec Er Hc Hr Ecap].
  rewrite Ht in *.
  set (c0 := candidate_card ow oh 0) in *.
  set (c2 := candidate_card ow oh 2) in *.
  assert (Lw : fst c2 <= fst c0).
  { unfold c0, c2, candidate_card. cbn [fst].
    change (Qltb 0 2) with true. change (Qltb 0 0) with false.
    cbv iota. change (2 * MM_TO_PT) with (1440 # 254). lra. }
  assert (Lh : snd c2 <= snd c0).
  { unfold c0, c2, candidate_card. cbn [snd].
    change (Qltb 0 2) with true. change (Qltb 0 0) with false.
    cbv iota. change (2 * MM_TO_PT) with (1440 # 254). lra. }
  assert (P0w : 0 < card_w_eff s0)
    by (rewrite Ewe; destruct (rotate s0); assumption).
  assert (P0h : 0 < card_h_eff s0)
    by (rewrite Ehe; destruct (rotate s0); assumption).
  assert (Uw : 0 <= uw).
  { destruct (Qlt_le_dec uw 0) as [N|N]; [|assumption].
    assert (F : uw < card_w_eff s0) by lra.
    apply (floor_lt_one_iff uw _ P0w) in F. lia. }
  assert (Uh : 0 <= uh).
  { destruct (Qlt_le_dec uh 0) as [N|N]; [|assumption].
    assert (F : uh < card_h_eff s0) by lra.
    apply (floor_lt_one_iff uh _ P0h) in F. lia. }
  set (rot := rotate s0) in *.
  assert (P2w : 0 < (if rot then snd c2 else fst c2))
    by (destruct rot; assumption).
  assert (P2h : 0 < (if rot then fst c2 else snd c2))
    by (destruct rot; assumption).
  assert (L2w : (if rot then snd c2 else fst c2) <= card_w_eff s0)
    by (rewrite Ewe; destruct rot; assumption).
  assert (L2h : (if rot then fst c2 else snd c2) <= card_h_eff s0)
    by (rewrite Ehe; destruct rot; assumption).
  pose proof (floor_div_antimono uw _ _ Uw P2w L2w) as Mc.
  pose proof (floor_div_antimono uh _ _ Uh P2h L2h) as Mr.
  rewrite <- Ec in Mc. rewrite <- Er in Mr.
  destruct (grid_scenario 2 (fst c2) (snd c2) uw uh rot) as [s2|] eqn:G.
  - pose proof (grid_scenario_Some _ _ _ _ _ _ _ G)
      as (Et2 & Er2 & Ew2 & Eh2 & Ec2 & Erw2 & Hc2 & Hr2 & Ecap2 & _).
    rewrite Ew2 in Ec2. rewrite Eh2 in Erw2.
    exists s2. split.
    + apply In_enumerated. exists 2. split; [right; left; reflexivity|].
      apply In_trim_scenarios. fold c2.
      split; [assumption|]. split; [assumption|]. exists rot. exact G.
    + split; [assumption|]. split; [assumption|].
      rewrite <- Ec2 in Mc. rewrite <- Erw2 in Mr.
      split; [assumption|]. split; [assumption|].
      rewrite Ecap, Ecap2. nia.
  - exfalso. apply grid_scenario_None in G. lia.
Qed.

Lemma trim_keeps_capacity_witness :
  exists ss s0 s2,
    enumerate_scenarios (90 * MM_TO_PT) (50 * MM_TO_PT)
      (200 * MM_TO_PT) (287 * MM_TO_PT) = Ok ss /\
    In s0 ss /\ In s2 ss /\ trim_mm s0 = 0 /\ trim_mm s2 = 2 /\
    (capacity s0 <= capacity s2)%Z.
Proof.
  destruct (enumerate_scenarios (90 * MM_TO_PT) (50 * MM_TO_PT)
              (200 * MM_TO_PT) (287 * MM_TO_PT)) as [ss|e] eqn:He;
    [|vm_compute in He; discriminate He].
  destruct ss as [|s0 ss']; [vm_compute in He; discriminate He|].
  assert (Ht : trim_mm s0 = 0).
  { vm_compute in He. injection He as <- _. reflexivity. }
  destruct (trim_keeps_capacity _ _ _ _ _ s0 He (or_introl eq_refl) Ht
              eq_refl eq_refl)
    as (s2 & Hin2 & Et & _ & _ & _ & Hcap).
  exists (s0 :: ss'), s0, s2.
  split; [reflexivity|]. split; [left; reflexivity|].
  repeat split; assumption.
Defined.

(** ** What a run raises, in binary64 *)

Lemma float_eqb_leb x y :
  PrimFloat.eqb x y = true -> PrimFloat.leb x y = true.
Proof.
  rewrite FloatAxioms.eqb_spec, FloatAxioms.leb_spec.
  unfold SpecFloat.SFeqb, SpecFloat.SFleb.
  destruct (SpecFloat.SFcompare _ _) as [[]|]; congruence.
Qed.

Lemma float_floordiv_raises vx wx e :
  F64.floordiv vx wx = Raise e ->
  e = DivisionByZero /\ PrimFloat.leb wx PrimFloat.zero = true.
Proof.
  unfold F64.floordiv.
  destruct (PrimFloat.eqb wx _) eqn:E.
  - intros [= <-]. split; [reflexivity|]. exact (float_eqb_leb _ _ E).
  - destruct (negb _); discriminate.
Qed.

Lemma float_int_raises x e :
  F64.int x = Raise e -> e = FloatToIntOverflow \/ e = FloatToIntNan.
Proof.
  unfold F64.int. destruct (FloatOps.Prim2SF x); try discriminate.
  - intros [= <-]. now left.
  - intros [= <-]. now right.
Qed.

(** With a card that passed the test [card <= 0], the grid computation lets
    only the overflow of [int] through the [except ValueError]. *)
Lemma float_try_rotation_raises t cw ch uw uh rot acc e :
  PrimFloat.leb cw PrimFloat.zero = false ->
  PrimFloat.leb ch PrimFloat.zero = false ->
  F64.try_rotation t cw ch uw uh rot acc = Raise e ->
  e = FloatToIntOverflow.
Proof.
  intros Hw Hh. unfold F64.try_rotation, F64.compute_grid.
  set (a := if rot then ch else cw). set (b := if rot then cw else ch).
  assert (Ha : PrimFloat.leb a PrimFloat.zero = false)
    by (unfold a; destruct rot; assumption).
  assert (Hb : PrimFloat.leb b PrimFloat.zero = false)
    by (unfold b; destruct rot; assumption).
  destruct (F64.floordiv uw a) as [qw|e1] eqn:E1; cbn [bind].
  2:{ apply float_floordiv_raises in E1. destruct E1 as [_ E1]. congruence. }
  destruct (F64.int qw) as [c|e2] eqn:E2; cbn [bind].
  2:{ apply float_int_raises in E2.
      destruct E2 as [->| ->]; cbn; [now intros [= <-]|discriminate]. }
  destruct (F64.floordiv uh b) as [qh|e3] eqn:E3; cbn [bind].
  2:{ apply float_floordiv_raises in E3. destruct E3 as [_ E3]. congruence. }
  destruct (F64.int qh) as [r|e4] eqn:E4; cbn [bind].
  2:{ apply float_int_raises in E4.
      destruct E4 as [->| ->]; cbn; [now intros [= <-]|discriminate]. }
  destruct ((c <? 1)%Z || (r <? 1)%Z); cbn; discriminate.
Qed.

Lemma float_try_trim_raises ow oh uw uh t acc e :
  F64.try_trim ow oh uw uh t acc = Raise e -> e = FloatToIntOverflow.
Proof.
  unfold F64.try_trim.
  destruct (F64.candidate_card ow oh t) as [cw ch].
  destruct (PrimFloat.leb cw _) eqn:Ew; [discriminate|].
  destruct (PrimFloat.leb ch _) eqn:Eh; [discriminate|].
  cbn [orb for_each].
  destruct (F64.try_rotation t cw ch uw uh false acc) as [acc1|e1] eqn:E1;
    cbn [bind].
  2:{ intros [= <-].
      exact (float_try_rotation_raises _ _ _ _ _ _ _ _ Ew Eh E1). }
  destruct (F64.try_rotation t cw ch uw uh true acc1) as [acc2|e2] eqn:E2;
    cbn [bind]; [discriminate|].
  intros [= <-]. exact (float_try_rotation_raises _ _ _ _ _ _ _ _ Ew Eh E2).
Qed.

Lemma float_enumerate_scenarios_raises ow oh uw uh e :
  F64.enumerate_scenarios ow oh uw uh = Raise e -> e = FloatToIntOverflow.
Proof.
  unfold F64.enumerate_scenarios, F64.trim_candidates_mm. cbn [for_each].
  destruct (F64.try_trim ow oh uw uh _ []) as [acc1|e1] eqn:E1; cbn [bind].
  2:{ intros [= <-]. eapply float_try_trim_raises; eassumption. }
  destruct (F64.try_trim ow oh uw uh _ acc1) as [acc2|e2] eqn:E2;
    cbn [bind]; [discriminate|].
  intros [= <-]. eapply float_try_trim_raises; eassumption.
Qed.

Lemma float_insert_desc_cons x l : F64.insert_desc x l <> [].
Proof.
  destruct l as [|y l]; cbn [F64.insert_desc]; [discriminate|].
  destruct (F64.key_lt (F64.sort_key x) (F64.sort_key y)); discriminate.
Qed.

Lemma float_select_best_raises ss e :
  F64.select_best ss = Raise e -> e = NoViableScenario.
Proof.
  destruct ss as [|x ss]; cbn [F64.select_best F64.sort_desc];
    [now intros [= <-]|].
  destruct (F64.insert_desc x (F64.sort_desc ss)) eqn:E; [|discriminate].
  exfalso. eapply float_insert_desc_cons, E.
Qed.

Lemma float_crop_raises page t page' e :
  F64.crop_page_all_sides page t = (page', Raise e) -> e = OverTrimmed.
Proof.
  unfold F64.crop_page_all_sides. cbv zeta.
  destruct (PrimFloat.leb t _); [discriminate|].
  destruct (_ || _); [|discriminate]. now intros [= <- <-].
Qed.

Lemma float_apply_trim_raises b front back e :
  F64.apply_trim b front back = Raise e -> e = OverTrimmed.
Proof.
  unfold F64.apply_trim.
  destruct (PrimFloat.ltb _ (F64.trim_mm b)); [|discriminate].
  destruct (F64.crop_page_all_sides front (F64.trim_mm b))
    as [f1 r1] eqn:E1.
  destruct r1 as [[]|e1]; cbn [bind].
  - destruct (F64.crop_page_all_sides back (F64.trim_mm b))
      as [b1 r2] eqn:E2.
    destruct r2 as [[]|e2]; cbn [bind]; [discriminate|].
    intros [= <-]. eapply float_crop_raises, E2.
  - intros [= <-]. eapply float_crop_raises, E1.
Qed.

Lemma float_get_sheet_size_raises name e :
  F64.get_sheet_size name = Raise e -> e = UnknownFormat.
Proof.
  unfold F64.get_sheet_size.
  destruct (lookup (upper name) F64.PAPER_SIZES_MM) as [[w h]|];
    [discriminate|]. now intros [= <-].
Qed.

(** In binary64, the planning part of a run raises one of seven errors: too
    few pages, unknown format, margin too large, no viable scenario,
    over-trimmed, the invariant error, or the overflow of [int] on an
    infinite quotient.  The division by zero, the index error of
    [scenarios[0]], and the two ValueErrors of the grid computation (no cell
    fits; [int] of a NaN) never leave it. *)
Theorem float_main_raises_only args reader e
  (H : F64.main_plan args reader = Raise e) :
  e = TooFewPages \/ e = UnknownFormat \/ e = MarginTooLarge \/
  e = NoViableScenario \/ e = OverTrimmed \/ e = InvariantViolation \/
  e = FloatToIntOverflow.
Proof.
  revert H. unfold F64.main_plan.
  destruct (F64.min_margins_mm args) as [mx my].
  destruct reader as [|front [|back rest]];
    try (intros [= <-]; now left).
  destruct (F64.get_sheet_size (F64.arg_paper args)) as [[sw sh]|e0] eqn:Es;
    cbn [bind fst snd].
  2:{ intros [= <-]. apply float_get_sheet_size_raises in Es. auto. }
  destruct (_ || _); [intros [= <-]; auto|].
  destruct (F64.enumerate_scenarios _ _ _ _) as [ss|e1] eqn:Ee; cbn [bind].
  2:{ intros [= <-]. apply float_enumerate_scenarios_raises in Ee. auto 8. }
  destruct (F64.select_best ss) as [b|e2] eqn:Eb; cbn [bind].
  2:{ intros [= <-]. apply float_select_best_raises in Eb. auto 8. }
  destruct (F64.apply_trim b front back) as [pages|e3] eqn:Ea; cbn [bind].
  2:{ intros [= <-]. apply float_apply_trim_raises in Ea. auto 8. }
  destruct (_ || _); [intros [= <-]; auto 8|discriminate].
Qed.

Lemma float_main_raises_only_witness :
  F64.main_plan F64.default_args [F64.tiny_page; F64.tiny_page]
  = Raise FloatToIntOverflow /\
  (FloatToIntOverflow = TooFewPages \/ FloatToIntOverflow = UnknownFormat \/
   FloatToIntOverflow = MarginTooLarge \/
   FloatToIntOverflow = NoViableScenario \/
   FloatToIntOverflow = OverTrimmed \/
   FloatToIntOverflow = InvariantViolation \/
   FloatToIntOverflow = FloatToIntOverflow).
Proof.
  assert (E : F64.main_plan F64.default_args [F64.tiny_page; F64.tiny_page]
              = Raise FloatToIntOverflow) by (vm_compute; reflexivity).
  split; [exact E|].
  exact (float_main_raises_only _ _ _ E).
Defined.
